(** * load_xml.py: the parallel ingestion pipeline, embedded and verified

    A shallow embedding of [scripts/load_xml.py]: date parsing, the
    case-file extractor, the intra-batch deduplicator, the upsert executor
    with its retry loop, and the per-file worker with the coordinator that
    aggregates worker results.

    Conventions of the embedding.
    - A Python [str] is a [string]; its characters stand for the code points
      below 256, on which Python's [\d] is exactly [0-9] and [str.isspace]
      is the twelve characters of [is_space] below.
    - A Python [int] is a [Z]; a length is a [nat].
    - A raised exception is the [Raise] branch of [result].
    - The record built by [parse_case_file] is a dict: its mandatory key
      ['serial_number'] is a field of [Rec], every other key lives in a
      finite map, so that [r.get(k)] is a lookup.
    - The database, the file system and the faults a write can meet are
      explicit state. *)

From Stdlib Require Import ZArith Lia Bool Ascii String List Sorting.Sorted Permutation.
From stdpp Require Import base option list gmap strings sorting.

Open Scope string_scope.
Open Scope list_scope.

(** ** Exceptions and results *)

Inductive exn :=
  | ValueError (msg : string)
  | ParseError (msg : string)          (* xml.etree.ElementTree.ParseError *)
  | DeadlockDetected (msg : string)    (* psycopg2.errors.DeadlockDetected *)
  | LockNotAvailable (msg : string)    (* psycopg2.errors.LockNotAvailable *)
  | OtherError (msg : string).         (* any other Exception *)

(** [str(e)] *)
Definition str_of_exn (e : exn) : string :=
  match e with
  | ValueError m | ParseError m | DeadlockDetected m
  | LockNotAvailable m | OtherError m => m
  end.

Inductive result (A : Type) :=
  | Ok (a : A)
  | Raise (e : exn).
Arguments Ok {A} a.
Arguments Raise {A} e.

Definition rbind {A B} (m : result A) (k : A → result B) : result B :=
  match m with
  | Ok a => k a
  | Raise e => Raise e
  end.

Notation "x <~ m ;; k" := (rbind m (fun x => k))
  (at level 100, m at next level, right associativity).

(** ** Calendar dates ([datetime.date]) *)

Module Date.

Record t := mk { year : Z; month : Z; day : Z }.

Definition is_leap (y : Z) : bool :=
  ((y mod 4 =? 0) && (negb (y mod 100 =? 0) || (y mod 400 =? 0)))%Z.

Definition days_in_month (y m : Z) : Z :=
  if (m =? 2)%Z then (if is_leap y then 29 else 28)%Z
  else if ((m =? 4) || (m =? 6) || (m =? 9) || (m =? 11))%Z then 30%Z
  else 31%Z.

(** The checks of the [date(year, month, day)] constructor. *)
Definition valid (y m d : Z) : bool :=
  ((1 <=? y) && (y <=? 9999) && (1 <=? m) && (m <=? 12)
   && (1 <=? d) && (d <=? days_in_month y m))%Z.

Definition make (y m d : Z) : result t :=
  if valid y m d then Ok (mk y m d)
  else Raise (ValueError "date value out of range").

(** Dates compare as the triples (year, month, day). *)
Definition ltb (a b : t) : bool :=
  ((year a <? year b)
   || ((year a =? year b)
       && ((month a <? month b)
           || ((month a =? month b) && (day a <? day b)))))%Z.

Definition eqb (a b : t) : bool :=
  ((year a =? year b) && (month a =? month b) && (day a =? day b))%Z.

Definition leb (a b : t) : bool := ltb a b || eqb a b.

End Date.

Abbreviation date := Date.t.

(** ** Strings: truthiness, [len], [strip], [endswith], [int] *)

Definition code (c : ascii) : Z := Z.of_N (N_of_ascii c).

Definition in_range (lo hi : ascii) (c : ascii) : bool :=
  ((code lo <=? code c) && (code c <=? code hi))%Z.

Definition is_digit : ascii → bool := in_range "0" "9".

(** [str.isspace] on the code points below 256. *)
Definition is_space (c : ascii) : bool :=
  let n := code c in
  (((9 <=? n) && (n <=? 13)) || ((28 <=? n) && (n <=? 32))
   || (n =? 133) || (n =? 160))%Z.

Fixpoint lstrip (s : string) : string :=
  match s with
  | String c r => if is_space c then lstrip r else s
  | EmptyString => EmptyString
  end.

Definition rstrip (s : string) : string := String.rev (lstrip (String.rev s)).

Definition strip (s : string) : string := rstrip (lstrip s).

(** [bool(s)] for an [Optional[str]]: [None] and [''] are falsy. *)
Definition str_truthy (o : option string) : bool :=
  match o with
  | Some (String _ _) => true
  | _ => false
  end.

Definition endswith (s suffix : string) : bool :=
  String.prefix (String.rev suffix) (String.rev s).

Fixpoint digits_value (acc : Z) (s : string) : result Z :=
  match s with
  | EmptyString => Ok acc
  | String c r =>
      if is_digit c then digits_value (10 * acc + (code c - 48))%Z r
      else Raise (ValueError "invalid literal for int()")
  end.

(** [int(s)] on a string of decimal digits with surrounding whitespace. *)
Definition py_int (s : string) : result Z :=
  match strip s with
  | EmptyString => Raise (ValueError "invalid literal for int()")
  | t => digits_value 0 t
  end.

(** ** [datetime.strptime(s, '%Y%m%d').date()]

    [_strptime] compiles the format to the regular expression
    [(?P<Y>\d\d\d\d)(?P<m>1[0-2]|0[1-9]|[1-9])(?P<d>3[0-1]|[1-2]\d|0[1-9]|[1-9]| [1-9])],
    matches it at the start of the input, rejects input left over after the
    match, and hands the three numbers to the date constructor.  A group is
    the list of its alternatives in the order the matcher tries them, each
    with the text it consumes and the text it leaves. *)

Module Strptime.

Definition cls := ascii → bool.
Definition chr (a : ascii) : cls := fun c => (code c =? code a)%Z.
Definition matches := list (string * string).

Definition one (p : cls) (s : string) : matches :=
  match s with
  | String c r => if p c then [(String c "", r)] else []
  | _ => []
  end.

Definition two (p q : cls) (s : string) : matches :=
  match s with
  | String c (String d r) =>
      if p c && q d then [(String c (String d ""), r)] else []
  | _ => []
  end.

Definition re_Y (s : string) : matches :=
  match s with
  | String a (String b (String c (String d r))) =>
      if is_digit a && is_digit b && is_digit c && is_digit d
      then [(String a (String b (String c (String d ""))), r)] else []
  | _ => []
  end.

Definition re_m (s : string) : matches :=
  two (chr "1") (in_range "0" "2") s
  ++ two (chr "0") (in_range "1" "9") s
  ++ one (in_range "1" "9") s.

Definition re_d (s : string) : matches :=
  two (chr "3") (in_range "0" "1") s
  ++ two (in_range "1" "2") is_digit s
  ++ two (chr "0") (in_range "1" "9") s
  ++ one (in_range "1" "9") s
  ++ two (chr " ") (in_range "1" "9") s.

(** The first match in backtracking order: groups Y, m, d and the rest. *)
Definition format_regex_match (s : string)
  : option (string * string * string * string) :=
  head ('(Y, r1) ← re_Y s;
        '(m, r2) ← re_m r1;
        '(d, r3) ← re_d r2;
        [(Y, m, d, r3)]).

Definition strptime (s : string) : result date :=
  match format_regex_match s with
  | None => Raise (ValueError "time data does not match format")
  | Some (Y, m, d, rest) =>
      match rest with
      | String _ _ => Raise (ValueError "unconverted data remains")
      | EmptyString =>
          y <~ py_int Y ;;
          mo <~ py_int m ;;
          dd <~ py_int d ;;
          Date.make y mo dd
      end
  end.

End Strptime.

(** ** [parse_date] *)

Definition parse_date (date_str : option string) : result (option date) :=
  match date_str with
  | None => Ok None
  | Some s =>
      if negb (str_truthy date_str) || (s =? "0") || negb (String.length s =? 8)%nat
      then Ok None
      else
        match Strptime.strptime s with
        | Ok d => Ok (Some d)
        | Raise (ValueError _) => Ok None
        | Raise e => Raise e
        end
  end.

(** ** XML elements ([xml.etree.ElementTree.Element]) *)

#[warnings="-register-all"] Inductive Element :=
  | Elem (tag : string) (text : option string) (children : list Element).

Definition tag (e : Element) : string := let 'Elem t _ _ := e in t.
Definition text (e : Element) : option string := let 'Elem _ x _ := e in x.
Definition children (e : Element) : list Element := let 'Elem _ _ c := e in c.

(** [element.findall(tag)]: the direct children with that tag, in document
    order; [element.find(tag)]: the first of them. *)
Definition findall (element : Element) (t : string) : list Element :=
  filter (λ child, tag child = t) (children element).

Definition find (element : Element) (t : string) : option Element :=
  head (findall element t).

Definition get_text (element : Element) (t : string) : option string :=
  match find element t with
  | Some child =>
      match text child with
      | Some (String _ _ as x) => Some (strip x)
      | _ => None
      end
  | None => None
  end.

Definition get_bool (element : Element) (t : string) : bool :=
  match get_text element t with
  | Some (String _ _ as x) => x =? "T"
  | _ => false
  end.

Definition get_all_text (element : Element) (t : string) : list string :=
  omap (λ child,
          match text child with
          | Some (String _ _ as x) => Some (strip x)
          | _ => None
          end)
       (findall element t).

(** ** Records *)

Record owner_data := mk_owner {
  entry_number : option string;
  party_type : option string;
  party_name : option string;
  legal_entity_type : option string;
  address : string;
  city : option string;
  state : option string;
  country : option string;
  postcode : option string;
  dba_aka : option string
}.

Inductive value :=
  | VNone
  | VStr (s : string)
  | VBool (b : bool)
  | VDate (d : date)
  | VList (l : list string)
  | VOwners (l : list owner_data)
  | VStatements (l : list (string * string)).   (* type_code, text *)

Definition vstr (o : option string) : value :=
  match o with Some s => VStr s | None => VNone end.

Definition vdate (o : option date) : value :=
  match o with Some d => VDate d | None => VNone end.

(** A case record: the dict of [parse_case_file] with its mandatory key. *)
Record Rec := mkRec {
  serial_number : string;
  fields : gmap string value
}.

(** [r.get(key)] and [r.get(key, default)] *)
Definition get (r : Rec) (key : string) : value :=
  default VNone (fields r !! key).

Definition get_default (r : Rec) (key : string) (d : value) : value :=
  default d (fields r !! key).

(** [list(set(xs)) if xs else None]: Python fixes no order for the
    elements of a set; [elements] is one enumeration of them. *)
Definition list_of_set (xs : list string) : list string :=
  elements (list_to_set xs : gset string).

Definition set_or_none (xs : list string) : value :=
  match xs with
  | [] => VNone
  | _ => VList (list_of_set xs)
  end.

(** [filter(None, parts)]: drops [None] and the empty string. *)
Definition filter_none (parts : list (option string)) : list string :=
  omap (λ p, match p with Some (String _ _ as x) => Some x | _ => None end) parts.

Definition newline : string := String "010"%char "".

Fixpoint foldM {A B} (f : B → A → result B) (l : list A) (b : B) : result B :=
  match l with
  | [] => Ok b
  | x :: l' => b' <~ f b x ;; foldM f l' b'
  end.

(** ** [parse_case_file] *)

Section parse_case_file.

Variable case_file_elem : Element.

Definition parse_header (record : gmap string value) : result (gmap string value) :=
  match find case_file_elem "case-file-header" with
  | None => Ok record
  | Some header =>
      let record := <["mark_identification" := vstr (get_text header "mark-identification")]> record in
      let record := <["mark_drawing_code" := vstr (get_text header "mark-drawing-code")]> record in
      let record := <["standard_characters" := VBool (get_bool header "standard-characters-claimed-in")]> record in
      let record := <["status_code" := vstr (get_text header "status-code")]> record in
      d <~ parse_date (get_text header "status-date") ;;
      let record := <["status_date" := vdate d]> record in
      d <~ parse_date (get_text header "filing-date") ;;
      let record := <["filing_date" := vdate d]> record in
      d <~ parse_date (get_text header "registration-date") ;;
      let record := <["registration_date" := vdate d]> record in
      d <~ parse_date (get_text header "published-for-opposition-date") ;;
      let record := <["publication_date" := vdate d]> record in
      d <~ parse_date (get_text header "abandonment-date") ;;
      let record := <["abandonment_date" := vdate d]> record in
      d <~ parse_date (get_text header "cancellation-date") ;;
      let record := <["cancellation_date" := vdate d]> record in
      d <~ parse_date (get_text header "renewal-date") ;;
      let record := <["renewal_date" := vdate d]> record in
      let record := <["cancellation_code" := vstr (get_text header "cancellation-code")]> record in
      let record := <["is_trademark" := VBool (get_bool header "trademark-in")]> record in
      let record := <["is_service_mark" := VBool (get_bool header "service-mark-in")]> record in
      let record := <["is_collective_trademark" := VBool (get_bool header "collective-trademark-in")]> record in
      let record := <["is_collective_service_mark" := VBool (get_bool header "collective-service-mark-in")]> record in
      let record := <["is_collective_membership_mark" := VBool (get_bool header "collective-membership-mark-in")]> record in
      let record := <["is_certification_mark" := VBool (get_bool header "certification-mark-in")]> record in
      let record := <["is_supplemental_register" := VBool (get_bool header "supplemental-register-in")]> record in
      let record := <["has_color" := VBool (get_bool header "color-drawing-current-in")]> record in
      let record := <["is_3d" := VBool (get_bool header "drawing-3d-current-in")]> record in
      let record := <["basis_use_in_commerce" := VBool (get_bool header "use-application-currently-in")]> record in
      let record := <["basis_intent_to_use" := VBool (get_bool header "intent-to-use-current-in")]> record in
      let record := <["basis_foreign_application" := VBool (get_bool header "filing-basis-current-44d-in")]> record in
      let record := <["basis_foreign_registration" := VBool (get_bool header "filing-basis-current-44e-in")]> record in
      let record := <["basis_international_registration" := VBool (get_bool header "filing-basis-current-66a-in")]> record in
      let record := <["cancellation_pending" := VBool (get_bool header "cancellation-pending-in")]> record in
      let record := <["opposition_pending" := VBool (get_bool header "opposition-pending-in")]> record in
      let record := <["interference_pending" := VBool (get_bool header "interference-pending-in")]> record in
      let record := <["concurrent_use_pending" := VBool (get_bool header "concurrent-use-proceeding-in")]> record in
      let record := <["section_8_accepted" := VBool (get_bool header "section-8-accepted-in")]> record in
      let record := <["section_15_acknowledged" := VBool (get_bool header "section-15-acknowledged-in")]> record in
      let record := <["section_2f" := VBool (get_bool header "section-2f-in")]> record in
      let record := <["attorney_name" := vstr (get_text header "attorney-name")]> record in
      let record := <["attorney_docket_number" := vstr (get_text header "attorney-docket-number")]> record in
      let record := <["domestic_representative" := vstr (get_text header "domestic-representative-name")]> record in
      Ok record
  end.

(** The five variables the classification loop updates. *)
Record class_vars := mk_class_vars {
  intl_classes : list string;
  us_classes : list string;
  primary_class : option string;
  first_use_anywhere : option date;
  first_use_commerce : option date
}.

Definition class_vars0 : class_vars := mk_class_vars [] [] None None None.

(** One iteration of [for classification in classifications.findall(...)]. *)
Definition classification_step (v : class_vars) (classification : Element)
  : result class_vars :=
  let intl_codes := get_all_text classification "international-code" in
  let us_codes := get_all_text classification "us-code" in
  let intl := intl_classes v ++ intl_codes in
  let us := us_classes v ++ us_codes in
  let primary :=
    match primary_class v with
    | None => get_text classification "primary-code"
    | Some p => Some p
    end in
  anywhere <~
    match first_use_anywhere v with
    | None => parse_date (get_text classification "first-use-anywhere-date")
    | Some d => Ok (Some d)
    end ;;
  commerce <~
    match first_use_commerce v with
    | None => parse_date (get_text classification "first-use-in-commerce-date")
    | Some d => Ok (Some d)
    end ;;
  Ok (mk_class_vars intl us primary anywhere commerce).

(** The classification groups the loop visits. *)
Definition classification_groups : list Element :=
  match find case_file_elem "classifications" with
  | Some classifications => findall classifications "classification"
  | None => []
  end.

Definition parse_classifications (record : gmap string value)
  : result (gmap string value) :=
  v <~ foldM classification_step classification_groups class_vars0 ;;
  let record := <["international_classes" := set_or_none (intl_classes v)]> record in
  let record := <["us_classes" := set_or_none (us_classes v)]> record in
  let record := <["primary_class" := vstr (primary_class v)]> record in
  let record := <["first_use_anywhere_date" := vdate (first_use_anywhere v)]> record in
  let record := <["first_use_in_commerce_date" := vdate (first_use_commerce v)]> record in
  Ok record.

Definition parse_design_codes (record : gmap string value) : gmap string value :=
  let design_codes :=
    match find case_file_elem "design-searches" with
    | Some design_searches =>
        omap (λ design_search,
                match get_text design_search "code" with
                | Some (String _ _ as c) => Some c
                | _ => None
                end)
             (findall design_searches "design-search")
    | None => []
    end in
  <["design_codes" := match design_codes with [] => VNone | _ => VList design_codes end]> record.

Definition parse_owner (owner : Element) : owner_data :=
  {| entry_number := get_text owner "entry-number";
     party_type := get_text owner "party-type";
     party_name := get_text owner "party-name";
     legal_entity_type := get_text owner "legal-entity-type-code";
     address := String.concat " "
                  (filter_none [get_text owner "address-1"; get_text owner "address-2"]);
     city := get_text owner "city";
     state := get_text owner "state";
     country := get_text owner "country";
     postcode := get_text owner "postcode";
     dba_aka := get_text owner "dba-aka-text" |}.

Definition parse_owners (record : gmap string value) : gmap string value :=
  let owners :=
    match find case_file_elem "case-file-owners" with
    | Some case_file_owners => map parse_owner (findall case_file_owners "case-file-owner")
    | None => []
    end in
  let record :=
    match owners with
    | primary_owner :: _ =>
        let record := <["owner_name" := vstr (party_name primary_owner)]> record in
        let record := <["owner_type" := vstr (party_type primary_owner)]> record in
        let record := <["owner_legal_entity_type" := vstr (legal_entity_type primary_owner)]> record in
        let record := <["owner_address" := VStr (address primary_owner)]> record in
        let record := <["owner_city" := vstr (city primary_owner)]> record in
        let record := <["owner_state" := vstr (state primary_owner)]> record in
        let record := <["owner_country" := vstr (country primary_owner)]> record in
        <["owner_postcode" := vstr (postcode primary_owner)]> record
    | [] => record
    end in
  <["owners" := VOwners owners]> record.

Definition parse_correspondent (record : gmap string value) : gmap string value :=
  match find case_file_elem "correspondent" with
  | Some correspondent =>
      let addr_parts :=
        map (λ i, get_text correspondent ("address-" +:+ i)) ["1"; "2"; "3"; "4"; "5"] in
      <["correspondent_address" := VStr (String.concat newline (filter_none addr_parts))]> record
  | None => record
  end.

Definition parse_statements (record : gmap string value) : gmap string value :=
  let statements :=
    match find case_file_elem "case-file-statements" with
    | Some case_file_statements =>
        omap (λ stmt,
                match get_text stmt "type-code", get_text stmt "text" with
                | Some (String _ _ as type_code), Some (String _ _ as txt) =>
                    Some (type_code, txt)
                | _, _ => None
                end)
             (findall case_file_statements "case-file-statement")
    | None => []
    end in
  <["statements" := VStatements statements]> record.

Definition parse_international_registration (record : gmap string value)
  : result (gmap string value) :=
  match find case_file_elem "international-registration" with
  | Some ir =>
      let record := <["ir_number" := vstr (get_text ir "international-registration-number")]> record in
      d <~ parse_date (get_text ir "international-registration-date") ;;
      let record := <["ir_registration_date" := vdate d]> record in
      Ok (<["ir_status_code" := vstr (get_text ir "international-status-code")]> record)
  | None => Ok record
  end.

Definition parse_case_file : result (option Rec) :=
  match get_text case_file_elem "serial-number" with
  | Some (String _ _ as serial) =>
      td <~ parse_date (get_text case_file_elem "transaction-date") ;;
      let registration_number :=
        match get_text case_file_elem "registration-number" with
        | Some rn => if rn =? "0000000" then VNone else VStr rn
        | None => VNone
        end in
      let record : gmap string value :=
        <["transaction_date" := vdate td]>
          (<["registration_number" := registration_number]> ∅) in
      record <~ parse_header record ;;
      record <~ parse_classifications record ;;
      let record := parse_design_codes record in
      let record := parse_owners record in
      let record := parse_correspondent record in
      let record := parse_statements record in
      record <~ parse_international_registration record ;;
      Ok (Some (mkRec serial record))
  | _ => Ok None
  end.

End parse_case_file.

(** ** Stable sorting ([list.sort] and [sorted] with a key)

    Python's sort is stable; with [reverse=True] it sorts as if every
    comparison were reversed and still keeps equal keys in their original
    order.  Any stable sort computes the same list; this one inserts from
    the right, placing an element before the first one it does not exceed. *)

Section stable_sort.

Context {A K : Type} (leb : K → K → bool) (key : A → K).

Fixpoint insert_by (x : A) (l : list A) : list A :=
  match l with
  | [] => [x]
  | y :: l' => if leb (key x) (key y) then x :: l else y :: insert_by x l'
  end.

Definition sort_by (l : list A) : list A := foldr insert_by [] l.

End stable_sort.

Definition sort_by_reverse {A K} (leb : K → K → bool) (key : A → K) : list A → list A :=
  sort_by (flip leb) key.

(** ** [_deduplicate_records] *)

Definition min_date : date := Date.mk 1800 1 1.

(** [d or min_date] for a date column, which holds a date or [None]. *)
Definition or_min_date (v : value) : date :=
  match v with
  | VDate d => d
  | _ => min_date
  end.

Definition date_key (r : Rec) : date * date :=
  let td := get r "transaction_date" in
  let sd := get r "status_date" in
  (or_min_date td, or_min_date sd).

(** Tuples compare lexicographically. *)
Definition key_leb (a b : date * date) : bool :=
  Date.ltb a.1 b.1 || (Date.eqb a.1 b.1 && Date.leb a.2 b.2).

(** [by_serial[r['serial_number']].append(r)] on a dict that keeps its keys
    in insertion order. *)
Fixpoint group_append (by_serial : list (string * list Rec)) (r : Rec)
  : list (string * list Rec) :=
  match by_serial with
  | [] => [(serial_number r, [r])]
  | (serial, entries) :: rest =>
      if decide (serial = serial_number r) then (serial, entries ++ [r]) :: rest
      else (serial, entries) :: group_append rest r
  end.

Definition group_by_serial (records : list Rec) : list (string * list Rec) :=
  fold_left group_append records [].

(** The entry kept for one serial number: [entries[0]], after the
    descending sort when the group has more than one entry. *)
Definition newest (entries : list Rec) : option Rec :=
  match entries with
  | [e] => Some e
  | _ => head (sort_by_reverse key_leb date_key entries)
  end.

Definition _deduplicate_records (records : list Rec) : list Rec :=
  omap (λ '(serial, entries), newest entries) (group_by_serial records).

(** ** The database *)

(** The 56 columns written after [serial_number], each with the default
    that [r.get] is given for it, in the order of the [VALUES] tuple. *)
Definition columns : list (string * value) :=
  [ ("registration_number", VNone); ("transaction_date", VNone);
    ("mark_identification", VNone); ("mark_drawing_code", VNone);
    ("standard_characters", VBool false);
    ("status_code", VNone); ("status_date", VNone);
    ("filing_date", VNone); ("registration_date", VNone);
    ("publication_date", VNone); ("abandonment_date", VNone);
    ("cancellation_date", VNone); ("renewal_date", VNone);
    ("cancellation_code", VNone);
    ("is_trademark", VBool false); ("is_service_mark", VBool false);
    ("is_collective_trademark", VBool false);
    ("is_collective_service_mark", VBool false);
    ("is_collective_membership_mark", VBool false);
    ("is_certification_mark", VBool false);
    ("is_supplemental_register", VBool false);
    ("has_color", VBool false); ("is_3d", VBool false);
    ("basis_use_in_commerce", VBool false); ("basis_intent_to_use", VBool false);
    ("basis_foreign_application", VBool false);
    ("basis_foreign_registration", VBool false);
    ("basis_international_registration", VBool false);
    ("cancellation_pending", VBool false); ("opposition_pending", VBool false);
    ("interference_pending", VBool false); ("concurrent_use_pending", VBool false);
    ("section_8_accepted", VBool false); ("section_15_acknowledged", VBool false);
    ("section_2f", VBool false);
    ("attorney_name", VNone); ("attorney_docket_number", VNone);
    ("domestic_representative", VNone);
    ("international_classes", VNone); ("us_classes", VNone);
    ("primary_class", VNone);
    ("first_use_anywhere_date", VNone); ("first_use_in_commerce_date", VNone);
    ("design_codes", VNone);
    ("owner_name", VNone); ("owner_type", VNone);
    ("owner_legal_entity_type", VNone);
    ("owner_address", VNone); ("owner_city", VNone); ("owner_state", VNone);
    ("owner_country", VNone); ("owner_postcode", VNone);
    ("correspondent_address", VNone);
    ("ir_number", VNone); ("ir_registration_date", VNone);
    ("ir_status_code", VNone) ].

(** A row of [trademarks]: the mapped columns after the key, and the two
    timestamps the server fills in. *)
Record tm_row := mk_tm_row {
  cols : list value;
  created_at : Z;
  updated_at : Z
}.

Record DB := mkDB {
  trademarks : gmap string tm_row;                          (* by serial_number *)
  trademark_statements : gset (string * string * string);   (* serial, type_code, text *)
  trademark_owners : gmap (string * string) owner_data;     (* serial, entry_number *)
  written : list string     (* serial numbers of the rows written, oldest first *)
}.

Definition empty_db : DB := mkDB ∅ ∅ ∅ [].

(** One tuple of [trademark_values]. *)
Definition trademark_value (r : Rec) : string * list value :=
  (serial_number r, map (λ '(k, d), get_default r k d) columns).

(** One row of [INSERT INTO trademarks ... ON CONFLICT (serial_number) DO
    UPDATE SET <every column> = EXCLUDED.<column>, updated_at =
    CURRENT_TIMESTAMP]; [now] is the statement's [CURRENT_TIMESTAMP]. *)
Definition upsert_row (now : Z) (d : DB) (row : string * list value) : DB :=
  let '(serial, vals) := row in
  let new_row :=
    match trademarks d !! serial with
    | Some old => mk_tm_row vals (created_at old) now
    | None => mk_tm_row vals now now
    end in
  mkDB (<[serial := new_row]> (trademarks d))
       (trademark_statements d) (trademark_owners d)
       (written d ++ [serial]).

(** [execute_values(cur, sql, argslist, template)]: the rows are sent in the
    order of [argslist].  The server refuses a statement that names one key
    twice; [_do_upsert] never sends one (see [trademark_values_NoDup]). *)
Definition execute_values (now : Z) (d : DB) (argslist : list (string * list value)) : DB :=
  fold_left (upsert_row now) argslist d.

Definition serial_leb (a b : string) : bool := bool_decide (String.le a b).

Definition sorted_records (records : list Rec) : list Rec :=
  sort_by serial_leb serial_number (_deduplicate_records records).

Definition trademark_values (records : list Rec) : list (string * list value) :=
  map trademark_value (sorted_records records).

(** [_do_upsert(conn, records)] in a transaction started at [now]: the
    database after the commit, and the returned count. *)
Definition _do_upsert (now : Z) (d : DB) (records : list Rec) : DB * nat :=
  (execute_values now d (trademark_values records), length records).

(** ** The world a worker runs in *)

(** What a write attempt can meet: an exception out of
    [get_db_connection()] (no connection exists yet) or one out of the
    statements run on the open connection. *)
Inductive fault :=
  | ConnectFails (e : exn)
  | WriteFails (e : exn).

Inductive event :=
  | Connect
  | Commit
  | Rollback
  | Close
  | Sleep (base : Z)        (* time.sleep(base + random.uniform(0, 1)) *)
  | LogRetry (retry max_retries : Z)       (* warning: "... retry r/m after ..." *)
  | LogPersisted (max_retries : Z)          (* error: "... persisted after m retries" *)
  | LogParseError (xml_path msg : string)   (* error: "XML parse error in ..." *)
  | LogProcessingError (xml_path msg : string) (* error: "Error processing ..." (worker) *)
  | LogFileError (path msg : string)        (* error: "Error processing ..." (coordinator) *)
  | LogCompleted (path : string) (count total : nat).

Record World := mkWorld {
  db : DB;
  clock : Z;                      (* the server's CURRENT_TIMESTAMP *)
  faults : list (option fault);   (* what the successive write attempts meet *)
  events : list event             (* oldest first *)
}.

Definition emit (evs : list event) (w : World) : World :=
  mkWorld (db w) (clock w) (faults w) (events w ++ evs).

(** The outcome of the next attempt, which starts one tick later; an
    exhausted script means no fault. *)
Definition next_fault (w : World) : option fault * World :=
  match faults w with
  | [] => (None, mkWorld (db w) (clock w + 1) [] (events w))
  | f :: fs => (f, mkWorld (db w) (clock w + 1) fs (events w))
  end.

Definition fault_exn (f : fault) : exn :=
  match f with ConnectFails e | WriteFails e => e end.

(** [if conn: rollback(); close()] of the two handlers. *)
Definition release (f : fault) (w : World) : World :=
  match f with
  | WriteFails _ => emit [Rollback; Close] w
  | ConnectFails _ => w
  end.

(** The classes caught by the first [except] clause. *)
Definition is_lock_error (e : exn) : bool :=
  match e with
  | DeadlockDetected _ | LockNotAvailable _ => true
  | _ => false
  end.

(** ** [upsert_batch] *)

(** The body of [for attempt in range(max_retries)], from iteration
    [attempt] on, with [remaining] iterations left, and the two statements
    after the loop. *)
Fixpoint upsert_loop (records : list Rec) (max_retries : Z)
    (remaining : nat) (attempt : Z) (last_error : option exn) (w : World)
  : World * result nat :=
  match remaining with
  | O =>
      match last_error with
      | Some e => (w, Raise e)
      | None => (w, Ok 0%nat)
      end
  | S remaining' =>
      match next_fault w with
      | (None, w) =>
          let w := emit [Connect] w in
          let '(d, n) := _do_upsert (clock w) (db w) records in
          let w := mkWorld d (clock w) (faults w) (events w ++ [Commit; Close]) in
          (w, Ok n)
      | (Some f, w) =>
          let e := fault_exn f in
          let w := match f with WriteFails _ => emit [Connect] w | _ => w end in
          if is_lock_error e then
            let w := release f w in
            if (attempt <? max_retries - 1)%Z then
              let w := emit [LogRetry (attempt + 1) max_retries; Sleep (2 ^ attempt)] w in
              upsert_loop records max_retries remaining' (attempt + 1)%Z (Some e) w
            else
              (emit [LogPersisted max_retries] w, Raise e)
          else
            (release f w, Raise e)
      end
  end.

Definition upsert_batch (records : list Rec) (max_retries : Z) (w : World)
  : World * result nat :=
  match records with
  | [] => (w, Ok 0%nat)
  | _ => upsert_loop records max_retries (Z.to_nat max_retries) 0 None w
  end.

Definition default_max_retries : Z := 5.

(** ** Files *)

(** What [ET.iterparse(path, events=('end',))] delivers: the elements whose
    end tag is read before the parser stops, and the parse error it stops
    with when the document is malformed. *)
Record XmlDoc := mkXmlDoc {
  doc_elems : list Element;
  doc_error : option string
}.

Inductive File :=
  | XmlFile (d : XmlDoc)
  | ZipFile (entries : list (string * XmlDoc)).   (* namelist() with contents *)

(** ** [process_xml_file] *)

Section process.

Variable BATCH_SIZE : Z.
Variable tmpdir : string.

(** The [for event, elem in context] loop.  Its state is the two locals
    [records] and [total_processed]; they are returned as they stand when
    the loop ends, together with the exception that ended it, if any. *)
Fixpoint xml_loop (elems : list Element) (records : list Rec)
    (total_processed : nat) (w : World)
  : World * (list Rec * nat * option exn) :=
  match elems with
  | [] => (w, (records, total_processed, None))
  | elem :: rest =>
      if decide (tag elem = "case-file") then
        match parse_case_file elem with
        | Raise e => (w, (records, total_processed, Some e))
        | Ok record =>
            let records :=
              match record with
              | Some r => records ++ [r]
              | None => records
              end in
            if (BATCH_SIZE <=? Z.of_nat (length records))%Z then
              match upsert_batch records default_max_retries w with
              | (w, Ok inserted) => xml_loop rest [] (total_processed + inserted) w
              | (w, Raise e) => (w, (records, total_processed, Some e))
              end
            else xml_loop rest records total_processed w
        end
      else xml_loop rest records total_processed w
  end.

(** The [try] block: [total_processed] when control leaves it, and the
    exception it leaves with, if any.  A malformed document raises its
    parse error once the elements before the defect have been delivered. *)
Definition try_block (fs : gmap string File) (xml_path : string) (w : World)
  : World * (nat * option exn) :=
  match fs !! xml_path with
  | None => (w, (0, Some (OtherError "No such file or directory")))
  | Some (ZipFile _) => (w, (0, Some (ParseError "not well-formed (invalid token)")))
  | Some (XmlFile d) =>
      match xml_loop (doc_elems d) [] 0 w with
      | (w, (records, total_processed, Some e)) => (w, (total_processed, Some e))
      | (w, (records, total_processed, None)) =>
          match doc_error d with
          | Some msg => (w, (total_processed, Some (ParseError msg)))
          | None =>
              match records with
              | [] => (w, (total_processed, None))
              | _ =>
                  match upsert_batch records default_max_retries w with
                  | (w, Ok inserted) => (w, (total_processed + inserted, None))
                  | (w, Raise e) => (w, (total_processed, Some e))
                  end
              end
          end
      end
  end.

Definition process_xml_file (fs : gmap string File) (xml_path : string) (w : World)
  : World * result nat :=
  match try_block fs xml_path w with
  | (w, (total_processed, None)) => (w, Ok total_processed)
  | (w, (total_processed, Some (ParseError msg))) =>
      (* except ET.ParseError: logged, then the function returns *)
      (emit [LogParseError xml_path msg] w, Ok total_processed)
  | (w, (_, Some e)) =>
      (* except Exception: logged and raised again *)
      (emit [LogProcessingError xml_path (str_of_exn e)] w, Raise e)
  end.

(** ** [process_zip_file] *)

Fixpoint zip_loop (fs : gmap string File) (entries : list (string * XmlDoc))
    (total : nat) (w : World) : World * result nat :=
  match entries with
  | [] => (w, Ok total)
  | (name, d) :: rest =>
      if endswith name ".xml" then
        let xml_path := tmpdir +:+ "/" +:+ name in
        match process_xml_file (<[xml_path := XmlFile d]> fs) xml_path w with
        | (w, Ok n) => zip_loop fs rest (total + n) w
        | (w, Raise e) => (w, Raise e)
        end
      else zip_loop fs rest total w
  end.

Definition process_zip_file (fs : gmap string File) (zip_path : string) (w : World)
  : World * result nat :=
  match fs !! zip_path with
  | Some (ZipFile entries) => zip_loop fs entries 0 w
  | Some (XmlFile _) => (w, Raise (OtherError "File is not a zip file"))
  | None => (w, Raise (OtherError "No such file or directory"))
  end.

(** ** [worker_process_file] *)

Definition file_result : Type := string * nat * option string.

Definition worker_process_file (fs : gmap string File) (file_path : string) (w : World)
  : World * file_result :=
  let run :=
    if endswith file_path ".zip" then Some (process_zip_file fs file_path w)
    else if endswith file_path ".xml" then Some (process_xml_file fs file_path w)
    else None in
  match run with
  | None => (w, (file_path, 0, None))
  | Some (w, Ok count) => (w, (file_path, count, None))
  | Some (w, Raise e) => (w, (file_path, 0, Some (str_of_exn e)))
  end.

(** ** [process_files_parallel]

    Every file is handed to a pool worker and the results are taken in
    completion order, which [as_completed] does not fix: [schedule] is
    that order.  A result tuple depends on the file and on the faults its
    writes meet, not on what the other workers do; the workers are run
    here one after the other in completion order. *)
Fixpoint run_workers (fs : gmap string File) (paths : list string) (w : World)
  : World * list file_result :=
  match paths with
  | [] => (w, [])
  | p :: rest =>
      let '(w, r) := worker_process_file fs p w in
      let '(w, rs) := run_workers fs rest w in
      (w, r :: rs)
  end.

(** The body of [for future in as_completed(futures)] on one result. *)
Definition collect (acc : nat * list event) (r : file_result) : nat * list event :=
  let '(total_processed, log) := acc in
  let '(path, count, error) := r in
  if str_truthy error then
    (total_processed, log ++ [LogFileError path (default "" error)])
  else
    let total_processed := total_processed + count in
    (total_processed, log ++ [LogCompleted path count total_processed]).

Definition process_files_parallel (schedule : list string → list string)
    (fs : gmap string File) (file_paths : list string) (w : World)
  : World * nat :=
  let '(w, results) := run_workers fs (schedule file_paths) w in
  let '(total_processed, log) := fold_left collect results (0, []) in
  (emit log w, total_processed).

End process.

Definition default_BATCH_SIZE : Z := 5000.

(** * Definitions used to state the properties *)

(** ** Dates *)

Definition digit (c : ascii) : Z := (code c - 48)%Z.

(** The two-character alternatives of the month and day groups. *)
Definition month2 (e f : ascii) : bool :=
  (Strptime.chr "1" e && in_range "0" "2" f)
  || (Strptime.chr "0" e && in_range "1" "9" f).

Definition day2 (g h : ascii) : bool :=
  (Strptime.chr "3" g && in_range "0" "1" h)
  || (in_range "1" "2" g && is_digit h)
  || (Strptime.chr "0" g && in_range "1" "9" h)
  || (Strptime.chr " " g && in_range "1" "9" h).

(** A candidate match that leaves input unread. *)
Definition leftover {A} (x : A * string) : Prop := x.2 ≠ "".

Definition with_groups (Y m : string) (l : Strptime.matches)
  : list (string * string * string * string) :=
  '(d, r3) ← l; [(Y, m, d, r3)].

(** The strings [parse_date] turns into a date: eight characters, all of
    them decimal digits except that the tens digit of the day may be a
    space, which name a day of the calendar. *)
Definition yyyymmdd (s : string) : option date :=
  match s with
  | String a (String b (String c (String d (String e (String f
      (String g (String h EmptyString))))))) =>
      if forallb is_digit [a; b; c; d; e; f; h]
         && (is_digit g || Strptime.chr " " g)
      then
        let y := (1000 * digit a + 100 * digit b + 10 * digit c + digit d)%Z in
        let m := (10 * digit e + digit f)%Z in
        let dd := ((if is_digit g then 10 * digit g else 0) + digit h)%Z in
        if Date.valid y m dd then Some (Date.mk y m dd) else None
      else None
  | _ => None
  end.

(** The reading of the specification: a valid [YYYYMMDD] calendar date is
    eight decimal digits that name a day of the calendar. *)
Definition is_yyyymmdd_date (s : string) : bool :=
  forallb is_digit (list_ascii_of_string s)
  && bool_decide (String.length s = 8)
  && bool_decide (is_Some (yyyymmdd s)).

(** ** Classifications *)

(** Every text of the [t] children of the groups, in document order. *)
Definition all_codes (t : string) (groups : list Element) : list string :=
  groups ≫= (λ g, get_all_text g t).

(** The first value that is not [None], in document order. *)
Definition first_some {A B} (f : A → option B) (l : list A) : option B :=
  head (omap f l).

(** What [parse_date] returns, which is never an exception. *)
Definition parse_date_value (date_str : option string) : option date :=
  date_str ≫= yyyymmdd.

Definition classification_keys : list string :=
  ["international_classes"; "us_classes"; "primary_class";
   "first_use_anywhere_date"; "first_use_in_commerce_date"].

(** [v] stores the codes [xs] as a deduplicated set: null when there is
    none, otherwise a list in which every code of [xs], and nothing else,
    occurs exactly once. *)
Definition is_code_set (xs : list string) (v : value) : Prop :=
  match xs with
  | [] => v = VNone
  | _ => ∃ l, v = VList l ∧ NoDup l ∧ (∀ c, c ∈ l ↔ c ∈ xs)
              ∧ (∀ c, c ∈ xs → count_occ string_dec l c = 1)
  end.

(** A case file with three classification groups; the code 025 is in the
    first two, the first group has no primary code and an unparseable
    first-use date. *)
Definition sample_classification (codes : list string) (primary anywhere : option string)
  : Element :=
  Elem "classification" None
    (map (λ c, Elem "international-code" (Some c) []) codes
     ++ match primary with Some x => [Elem "primary-code" (Some x) []] | None => [] end
     ++ match anywhere with
        | Some x => [Elem "first-use-anywhere-date" (Some x) []]
        | None => []
        end).

Definition sample_case_file : Element :=
  Elem "case-file" None
    [ Elem "serial-number" (Some " 12345678 ") [];
      Elem "registration-number" (Some "0000000") [];
      Elem "transaction-date" (Some "20240101") [];
      Elem "classifications" None
        [ sample_classification ["025"; "009"] None (Some "0");
          sample_classification ["025"] (Some "025") (Some "20200101");
          sample_classification ["030"] (Some "030") (Some "20210101") ] ].

(** ** Batches *)

(** The records of a batch that carry the serial number [s], in batch order. *)
Definition with_serial (s : string) (records : list Rec) : list Rec :=
  filter (λ r, serial_number r = s) records.

(** The entries stored under [s] in the grouping dict. *)
Definition entries (s : string) (by_serial : list (string * list Rec)) : list Rec :=
  by_serial ≫= (λ '(k, es), if decide (k = s) then es else []).

(** A record with no date at all, and one with some real date. *)
Definition both_dates_null (r : Rec) : Prop :=
  get r "transaction_date" = VNone ∧ get r "status_date" = VNone.

Definition has_real_date (r : Rec) : Prop :=
  ∃ d, get r "transaction_date" = VDate d ∨ get r "status_date" = VDate d.

(** The date key of [r] is strictly above the key of a record without
    dates, which is the pair of sentinels. *)
Definition above_floor (r : Rec) : Prop :=
  key_leb (date_key r) (min_date, min_date) = false.

(** A case file that has only a serial number and, optionally, a
    transaction date and a status date; and the records of a list of case
    files. *)
Definition dated_case_file (serial : string) (td sd : option string) : Element :=
  Elem "case-file" None
    ([Elem "serial-number" (Some serial) []]
     ++ match td with
        | Some d => [Elem "transaction-date" (Some d) []]
        | None => []
        end
     ++ match sd with
        | Some d => [Elem "case-file-header" None [Elem "status-date" (Some d) []]]
        | None => []
        end).

Definition parsed (elems : list Element) : list Rec :=
  omap (λ e, match parse_case_file e with Ok r => r | Raise _ => None end) elems.

Definition parsed1 (e : Element) : Rec :=
  default (mkRec "" ∅) (head (parsed [e])).

(** Two revisions of one serial number, and a record without dates next to
    one dated before the sentinel. *)
Definition sample_jan : Rec := parsed1 (dated_case_file "S" (Some "20240101") None).
Definition sample_jun : Rec := parsed1 (dated_case_file "S" (Some "20240601") None).
Definition sample_undated : Rec := parsed1 (dated_case_file "A" None None).
Definition sample_1700 : Rec := parsed1 (dated_case_file "A" (Some "17000101") None).

(** ** The table *)

(** The row stored for a key by a write at time [now] of the values
    [vals], when [old] was stored before: every mapped column and
    [updated_at] are new, [created_at] is kept. *)
Definition row_after (now : Z) (old : option tm_row) (vals : list value) : tm_row :=
  mk_tm_row vals (match old with Some o => created_at o | None => now end) now.

(** A case file with one owner and one goods-and-services statement. *)
Definition sample_owned_case_file : Element :=
  Elem "case-file" None
    [ Elem "serial-number" (Some "97000001") [];
      Elem "case-file-owners" None
        [ Elem "case-file-owner" None
            [ Elem "entry-number" (Some "1") [];
              Elem "party-name" (Some "ACME") [] ] ];
      Elem "case-file-statements" None
        [ Elem "case-file-statement" None
            [ Elem "type-code" (Some "GS0251") [];
              Elem "text" (Some "Shirts") [] ] ] ].

Definition sample_owned : Rec := parsed1 sample_owned_case_file.

(** A world with an empty database in which the successive write attempts
    meet [faults]. *)
Definition fresh_world (faults : list (option fault)) : World :=
  mkWorld empty_db 0 faults [].

(** The number of records held by the grouping dict. *)
Fixpoint group_sizes (by_serial : list (string * list Rec)) : nat :=
  match by_serial with
  | [] => 0
  | (_, es) :: rest => length es + group_sizes rest
  end.

(** ** Retries *)

(** What a failed attempt that is retried adds to the trace: the
    connection is rolled back and closed, the retry is announced, and the
    process sleeps [2 ^ attempt] plus the jitter. *)
Definition retry_events (max_retries attempt : Z) : list event :=
  [Connect; Rollback; Close; LogRetry (attempt + 1) max_retries; Sleep (2 ^ attempt)].

(** The trace of [n] such attempts in a row, the first numbered [attempt]. *)
Fixpoint retries (max_retries attempt : Z) (n : nat) : list event :=
  match n with
  | O => []
  | S n' => retry_events max_retries attempt ++ retries max_retries (attempt + 1) n'
  end.

(** What the failed attempt that ends the loop adds to the trace. *)
Definition last_failure_events (max_retries : Z) : list event :=
  [Connect; Rollback; Close; LogPersisted max_retries].

(** Write attempts that fail on the open connection with the errors [es]. *)
Definition fails (es : list exn) : list (option fault) :=
  map (λ e, Some (WriteFails e)) es.

(** The world after a write attempt without fault that starts [k] ticks
    after [w] has written the whole batch. *)
Definition written_world (records : list Rec) (w : World) (k : Z)
    (rest : list (option fault)) (trace : list event) : World :=
  mkWorld (execute_values (clock w + k) (db w) (trademark_values records))
          (clock w + k) rest (events w ++ trace ++ [Connect; Commit; Close]).

Definition deadlock : exn := DeadlockDetected "deadlock detected".

(** The reading of the retry claim for [n] failures: when the first [n]
    write attempts deadlock and the next one meets no fault, each failure
    is followed by a retry, so the batch is written and its count
    returned. *)
Definition retried_after_each_of (n : nat) : Prop :=
  ∀ records w,
    records ≠ [] →
    faults w = fails (repeat deadlock n) ++ [None] →
    ∃ w', upsert_batch records default_max_retries w = (w', Ok (length records)).

(** The variable [last_error] after a run of failures. *)
Definition last_error_after (last_error : option exn) (es : list exn) : option exn :=
  fold_left (λ _ e, Some e) es last_error.

(** ** Files and workers *)

(** The records of the case-file elements a document delivers. *)
Definition case_records (elems : list Element) : list Rec :=
  parsed (filter (λ e, tag e = "case-file") elems).

(** The result tuple of a file that is processed alone, in a fresh world
    without faults. *)
Definition alone (BATCH_SIZE : Z) (tmpdir : string) (fs : gmap string File)
    (path : string) : file_result :=
  (worker_process_file BATCH_SIZE tmpdir fs path (fresh_world [])).2.

(** The sum of the counts of the results that carry no error. *)
Definition successful_total (results : list file_result) : nat :=
  sum_list (map (λ r : file_result, if str_truthy r.2 then 0 else r.1.2) results).

(** The reading of the partial-failure claim for the corrupted file: its
    result is an error result, [(file, 0, error)]. *)
Definition reported_as_failed (results : list file_result) (path : string) : Prop :=
  ∃ error, (path, 0, Some error) ∈ results.

(** Three files, the second of which is cut off after its first case file. *)
Definition sample_fs : gmap string File :=
  list_to_map
    [ ("a.xml", XmlFile (mkXmlDoc [dated_case_file "A1" None None;
                                   dated_case_file "A2" None None] None));
      ("b.xml", XmlFile (mkXmlDoc [dated_case_file "B1" None None]
                                  (Some "no element found")));
      ("c.xml", XmlFile (mkXmlDoc [dated_case_file "C1" None None] None)) ].

(** The same files, the second with three case files before the defect. *)
Definition sample_fs2 : gmap string File :=
  <["b.xml" := XmlFile (mkXmlDoc [dated_case_file "B1" None None;
                                  dated_case_file "B2" None None;
                                  dated_case_file "B3" None None]
                                 (Some "no element found"))]> sample_fs.

(** ** Keys of the record *)

(** The keys each block of [parse_case_file] writes. *)
Definition header_keys : list string :=
  [ "domestic_representative"; "attorney_docket_number"; "attorney_name";
    "section_2f"; "section_15_acknowledged"; "section_8_accepted";
    "concurrent_use_pending"; "interference_pending"; "opposition_pending";
    "cancellation_pending"; "basis_international_registration";
    "basis_foreign_registration"; "basis_foreign_application";
    "basis_intent_to_use"; "basis_use_in_commerce"; "is_3d"; "has_color";
    "is_supplemental_register"; "is_certification_mark";
    "is_collective_membership_mark"; "is_collective_service_mark";
    "is_collective_trademark"; "is_service_mark"; "is_trademark";
    "cancellation_code"; "renewal_date"; "cancellation_date"; "abandonment_date";
    "publication_date"; "registration_date"; "filing_date"; "status_date";
    "status_code"; "standard_characters"; "mark_drawing_code";
    "mark_identification" ].

Definition owner_keys : list string :=
  [ "owner_postcode"; "owner_country"; "owner_state"; "owner_city";
    "owner_address"; "owner_legal_entity_type"; "owner_type"; "owner_name" ].

(** The keys written after the header and the classifications. *)
Definition tail_keys : list string :=
  [ "ir_status_code"; "ir_registration_date"; "ir_number"; "statements";
    "correspondent_address"; "owners" ] ++ owner_keys ++ ["design_codes"].

(** The boolean columns with the indicator element each is read from. *)
Definition flag_columns : list (string * string) :=
  [ ("standard_characters", "standard-characters-claimed-in");
    ("is_trademark", "trademark-in");
    ("is_service_mark", "service-mark-in");
    ("is_collective_trademark", "collective-trademark-in");
    ("is_collective_service_mark", "collective-service-mark-in");
    ("is_collective_membership_mark", "collective-membership-mark-in");
    ("is_certification_mark", "certification-mark-in");
    ("is_supplemental_register", "supplemental-register-in");
    ("has_color", "color-drawing-current-in");
    ("is_3d", "drawing-3d-current-in");
    ("basis_use_in_commerce", "use-application-currently-in");
    ("basis_intent_to_use", "intent-to-use-current-in");
    ("basis_foreign_application", "filing-basis-current-44d-in");
    ("basis_foreign_registration", "filing-basis-current-44e-in");
    ("basis_international_registration", "filing-basis-current-66a-in");
    ("cancellation_pending", "cancellation-pending-in");
    ("opposition_pending", "opposition-pending-in");
    ("interference_pending", "interference-pending-in");
    ("concurrent_use_pending", "concurrent-use-proceeding-in");
    ("section_8_accepted", "section-8-accepted-in");
    ("section_15_acknowledged", "section-15-acknowledged-in");
    ("section_2f", "section-2f-in") ].

(** The dict [parse_case_file] starts from. *)
Definition base_record (e : Element) : gmap string value :=
  <["transaction_date" := vdate (parse_date_value (get_text e "transaction-date"))]>
    (<["registration_number" :=
         match get_text e "registration-number" with
         | Some rn => if rn =? "0000000" then VNone else VStr rn
         | None => VNone
         end]> ∅).

(** The owners of a case file, in document order. *)
Definition owners_of (e : Element) : list owner_data :=
  match find e "case-file-owners" with
  | Some case_file_owners => map parse_owner (findall case_file_owners "case-file-owner")
  | None => []
  end.

(** The blocks after the classifications, taken together. *)
Definition parse_tail (e : Element) (record : gmap string value)
  : result (gmap string value) :=
  parse_international_registration e
    (parse_statements e (parse_correspondent e (parse_owners e (parse_design_codes e record)))).

(** The text of the first child with a tag, as the document has it. *)
Definition raw_text (e : Element) (t : string) : option string :=
  find e t ≫= text.

(** A case file with a header, two owners and statements of which only
    one has both a type code and a text. *)
Definition sample_full_case_file : Element :=
  Elem "case-file" None
    [ Elem "serial-number" (Some " 97000002") [];
      Elem "registration-number" (Some "7000001") [];
      Elem "case-file-header" None
        [ Elem "trademark-in" (Some "T") [];
          Elem "service-mark-in" (Some "F") [];
          Elem "filing-date" (Some "20230230") [] ];
      Elem "design-searches" None
        [ Elem "design-search" None [Elem "code" (Some "260101") []];
          Elem "design-search" None [];
          Elem "design-search" None [Elem "code" (Some "260101") []] ];
      Elem "case-file-owners" None
        [ Elem "case-file-owner" None
            [ Elem "entry-number" (Some "1") [];
              Elem "party-name" (Some "ACME") [];
              Elem "address-1" (Some "1 Main St") [];
              Elem "city" (Some "Springfield") [] ];
          Elem "case-file-owner" None
            [ Elem "entry-number" (Some "2") [];
              Elem "party-name" (Some "ACME Holdings") [] ] ];
      Elem "case-file-statements" None
        [ Elem "case-file-statement" None
            [ Elem "type-code" (Some "GS0251") [];
              Elem "text" (Some "Shirts") [] ];
          Elem "case-file-statement" None
            [ Elem "type-code" (Some "D10000") [] ] ] ].

(** * Properties

    First the examples the model is checked on. *)

Example parse_date_20230615 :
  parse_date (Some "20230615") = Ok (Some (Date.mk 2023 6 15)).
Proof. reflexivity. Qed.

Example parse_date_space_day :
  parse_date (Some "202306 5") = Ok (Some (Date.mk 2023 6 5)).
Proof. reflexivity. Qed.

Example parse_date_samples :
  map parse_date [Some "0"; Some ""; None; Some "2023061"; Some "20230230";
                  Some "20231301"; Some "00000101"; Some "2023061x"]
  = repeat (Ok None) 8.
Proof. reflexivity. Qed.

Example parse_date_1700 :
  parse_date (Some "17000101") = Ok (Some (Date.mk 1700 1 1)).
Proof. reflexivity. Qed.

(** ** Characters and [int] *)

Ltac b2p :=
  repeat match goal with
  | H : _ && _ = true |- _ => apply andb_true_iff in H; destruct H
  | H : _ || _ = true |- _ => apply orb_true_iff in H
  | H : _ && _ = false |- _ => apply andb_false_iff in H
  | H : _ || _ = false |- _ => apply orb_false_iff in H; destruct H
  | H : (_ <=? _)%Z = true |- _ => apply Z.leb_le in H
  | H : (_ <=? _)%Z = false |- _ => apply Z.leb_gt in H
  | H : (_ =? _)%Z = true |- _ => apply Z.eqb_eq in H
  | H : (_ =? _)%Z = false |- _ => apply Z.eqb_neq in H
  | H : (_ <? _)%Z = true |- _ => apply Z.ltb_lt in H
  | H : (_ <? _)%Z = false |- _ => apply Z.ltb_ge in H
  | H : negb _ = true |- _ => apply negb_true_iff in H
  | H : negb _ = false |- _ => apply negb_false_iff in H
  end.

Ltac codes :=
  unfold is_digit, is_space, Strptime.chr, in_range in *;
  change (code "0") with 48%Z in *; change (code "1") with 49%Z in *;
  change (code "2") with 50%Z in *; change (code "3") with 51%Z in *;
  change (code "9") with 57%Z in *; change (code " ") with 32%Z in *.

Lemma code_range c : (0 <= code c < 256)%Z.
Proof.
  unfold code. pose proof (N_ascii_bounded c) as H. lia.
Qed.

Lemma bool_eq_true_iff (a b : bool) : (a = true ↔ b = true) → a = b.
Proof. destruct a, b; intuition congruence. Qed.

Lemma digit_not_space c : is_digit c = true → is_space c = false.
Proof.
  intros H. apply not_true_iff_false. intros Hs. codes. cbv zeta in Hs. b2p. lia.
Qed.

Lemma digit_not_chr_space c : is_digit c = true → Strptime.chr " " c = false.
Proof.
  intros H. apply not_true_iff_false. intros Hs. codes. b2p. lia.
Qed.

Lemma space_is_space c : Strptime.chr " " c = true → is_space c = true.
Proof.
  intros H. codes. cbv zeta. b2p. rewrite H. reflexivity.
Qed.

Lemma space_not_19 c : Strptime.chr " " c = true → in_range "1" "9" c = false.
Proof.
  intros H. apply not_true_iff_false. intros Hs. codes. b2p. lia.
Qed.

Lemma py_int_4 a b c d :
  is_digit a = true → is_digit b = true → is_digit c = true → is_digit d = true →
  py_int (String a (String b (String c (String d ""))))
  = Ok (1000 * digit a + 100 * digit b + 10 * digit c + digit d)%Z.
Proof.
  intros Ha Hb Hc Hd. unfold py_int, strip, rstrip.
  cbn [lstrip]. rewrite (digit_not_space a Ha).
  cbn [String.rev String.rev_app lstrip]. rewrite (digit_not_space d Hd).
  cbn [String.rev String.rev_app digits_value]. rewrite Ha, Hb, Hc, Hd.
  f_equal; unfold digit; lia.
Qed.

Lemma py_int_2 a b :
  is_digit a = true → is_digit b = true →
  py_int (String a (String b "")) = Ok (10 * digit a + digit b)%Z.
Proof.
  intros Ha Hb. unfold py_int, strip, rstrip.
  cbn [lstrip]. rewrite (digit_not_space a Ha).
  cbn [String.rev String.rev_app lstrip]. rewrite (digit_not_space b Hb).
  cbn [String.rev String.rev_app digits_value]. rewrite Ha, Hb.
  f_equal; unfold digit; lia.
Qed.

Lemma py_int_space a b :
  Strptime.chr " " a = true → is_digit b = true →
  py_int (String a (String b "")) = Ok (digit b).
Proof.
  intros Ha Hb. unfold py_int, strip, rstrip.
  cbn [lstrip]. rewrite (space_is_space a Ha), (digit_not_space b Hb).
  cbn [String.rev String.rev_app lstrip]. rewrite (digit_not_space b Hb).
  cbn [String.rev String.rev_app digits_value]. rewrite Hb.
  f_equal; unfold digit; lia.
Qed.

(** ** The format's regular expression on eight characters *)

Section regex.
Import Strptime.

Lemma with_groups_head Y m l d :
  head l = Some (d, "") → ∀ rest, head (with_groups Y m l ++ rest) = Some (Y, m, d, "").
Proof. destruct l as [|[d' r] l]; [done|]. cbn. by intros [= -> ->]. Qed.

Lemma with_groups_leftover Y m l :
  Forall leftover l → Forall leftover (with_groups Y m l).
Proof.
  induction 1 as [|[d r] l Hx Hl IH]; [constructor|].
  cbn. constructor; [exact Hx | exact IH].
Qed.

Lemma leftover_head (l : list (string * string * string * string)) :
  Forall leftover l →
  match head l with Some (_, _, _, "") => False | _ => True end.
Proof.
  destruct 1 as [|[[[Y m] d] r] l Hx _]; [done|].
  cbn. destruct r; [by apply Hx | done].
Qed.

Lemma re_d_two_true g h :
  day2 g h = true →
  head (re_d (String g (String h ""))) = Some (String g (String h ""), "").
Proof.
  unfold day2, re_d, two, one. intros H.
  destruct (chr "3" g && in_range "0" "1" h); [done|].
  destruct (in_range "1" "2" g && is_digit h); [done|].
  destruct (chr "0" g && in_range "1" "9" h); [done|].
  cbn in H. rewrite H. apply andb_true_iff in H as [Hg _].
  by rewrite (space_not_19 _ Hg).
Qed.

Lemma re_d_two_false g h :
  day2 g h = false → Forall leftover (re_d (String g (String h ""))).
Proof.
  unfold day2, re_d, two, one. intros H.
  apply orb_false_iff in H as [H ->]. apply orb_false_iff in H as [H ->].
  apply orb_false_iff in H as [-> ->].
  destruct (in_range "1" "9" g); repeat constructor; done.
Qed.

Lemma re_d_long c1 c2 c3 s :
  Forall leftover (re_d (String c1 (String c2 (String c3 s)))).
Proof.
  unfold re_d, two, one.
  repeat match goal with |- context [if ?b then _ else _] => destruct b end;
    repeat constructor; done.
Qed.

(** The whole input is matched exactly when the year is four digits and
    month and day each match a two-character alternative. *)
Lemma format_regex_match_8 a b c d e f g h :
  let s := String a (String b (String c (String d (String e (String f
             (String g (String h EmptyString))))))) in
  if is_digit a && is_digit b && is_digit c && is_digit d && month2 e f && day2 g h
  then format_regex_match s
       = Some (String a (String b (String c (String d ""))),
               String e (String f ""), String g (String h ""), "")
  else match format_regex_match s with
       | Some (_, _, _, "") => False
       | _ => True
       end.
Proof.
  intros s; subst s. unfold format_regex_match, re_Y.
  destruct (is_digit a && is_digit b && is_digit c && is_digit d); [|done].
  cbn [andb mbind list_bind app].
  set (Y := String a (String b (String c (String d "")))).
  pose proof (re_d_long f g h "") as Hlong.
  unfold month2, re_m, two, one.
  destruct (chr "1" e && in_range "0" "2" f) eqn:H1;
    destruct (chr "0" e && in_range "1" "9" f) eqn:H2;
    destruct (in_range "1" "9" e) eqn:H3; cbn [orb andb app mbind list_bind];
    (destruct (day2 g h) eqn:Hd;
     [ try (rewrite app_nil_r; apply (with_groups_head Y _ _ _ (re_d_two_true g h Hd)))
     | pose proof (re_d_two_false g h Hd) as Hshort ]);
    try (apply leftover_head;
         repeat (apply Forall_app; split);
         try apply with_groups_leftover; try constructor; assumption).
Qed.

End regex.

Lemma month2_spec e f :
  month2 e f = is_digit e && is_digit f
               && (1 <=? 10 * digit e + digit f)%Z && (10 * digit e + digit f <=? 12)%Z.
Proof.
  apply bool_eq_true_iff. unfold month2, digit. codes.
  rewrite !andb_true_iff, !orb_true_iff, !andb_true_iff, !Z.leb_le, !Z.eqb_eq.
  pose proof (code_range e). pose proof (code_range f). lia.
Qed.

Lemma day2_spec g h :
  day2 g h = is_digit h
             && ((is_digit g && (1 <=? 10 * digit g + digit h)%Z
                  && (10 * digit g + digit h <=? 31)%Z)
                 || (Strptime.chr " " g && (1 <=? digit h)%Z)).
Proof.
  apply bool_eq_true_iff. unfold day2, digit. codes.
  rewrite !andb_true_iff, !orb_true_iff, !andb_true_iff, !Z.leb_le, !Z.eqb_eq.
  pose proof (code_range g). pose proof (code_range h). lia.
Qed.

Lemma days_in_month_le y m : (Date.days_in_month y m <= 31)%Z.
Proof.
  unfold Date.days_in_month.
  repeat match goal with |- context [if ?b then _ else _] => destruct b end; lia.
Qed.

Lemma valid_false_month y m d :
  (1 <=? m)%Z && (m <=? 12)%Z = false → Date.valid y m d = false.
Proof.
  intros H. unfold Date.valid. apply not_true_iff_false. intros Hv.
  rewrite !andb_true_iff in Hv. destruct Hv as [[[[[_ ?] ?] ?] _] _].
  destruct (1 <=? m)%Z, (m <=? 12)%Z; done.
Qed.

Lemma valid_false_day y m d :
  (1 <=? d)%Z && (d <=? 31)%Z = false → Date.valid y m d = false.
Proof.
  intros H. unfold Date.valid. apply not_true_iff_false. intros Hv.
  rewrite !andb_true_iff, !Z.leb_le in Hv.
  pose proof (days_in_month_le y m).
  apply andb_false_iff in H as [H|H]; [apply Z.leb_gt in H | apply Z.leb_gt in H]; lia.
Qed.

(** [strptime] returns the date of the [yyyymmdd] strings and raises
    [ValueError] on every other string of eight characters. *)
Lemma strptime_8 a b c d e f g h :
  let s := String a (String b (String c (String d (String e (String f
             (String g (String h EmptyString))))))) in
  match yyyymmdd s with
  | Some dt => Strptime.strptime s = Ok dt
  | None => ∃ msg, Strptime.strptime s = Raise (ValueError msg)
  end.
Proof.
  intros s.
  pose proof (format_regex_match_8 a b c d e f g h) as HM. cbv zeta in HM. fold s in HM.
  assert (Hraise : match Strptime.format_regex_match s with
                   | Some (_, _, _, "") => False | _ => True end →
                   ∃ msg, Strptime.strptime s = Raise (ValueError msg)).
  { unfold Strptime.strptime.
    destruct (Strptime.format_regex_match s) as [[[[Y m] dd] r]|]; [|by eauto].
    destruct r; [done | by eauto]. }
  rewrite month2_spec, day2_spec in HM.
  unfold yyyymmdd; subst s; cbn [forallb]. fold (yyyymmdd).
  set (s := String a _) in *.
  destruct (is_digit a) eqn:Ha; [|by apply Hraise, HM].
  destruct (is_digit b) eqn:Hb; [|by apply Hraise, HM].
  destruct (is_digit c) eqn:Hc; [|by apply Hraise, HM].
  destruct (is_digit d) eqn:Hd; [|by apply Hraise, HM].
  destruct (is_digit e) eqn:He; [|by apply Hraise, HM].
  destruct (is_digit f) eqn:Hf; [|by apply Hraise, HM].
  destruct (is_digit h) eqn:Hh;
    [|cbn [andb] in *; rewrite ?andb_false_r in HM; by apply Hraise, HM].
  cbn [andb] in *.
  set (y := (1000 * digit a + 100 * digit b + 10 * digit c + digit d)%Z).
  set (m := (10 * digit e + digit f)%Z) in *.
  assert (Hfull : Strptime.format_regex_match s
                  = Some (String a (String b (String c (String d ""))),
                          String e (String f ""), String g (String h ""), "") →
                  ∀ dd, py_int (String g (String h "")) = Ok dd →
                  Strptime.strptime s
                  = if Date.valid y m dd then Ok (Date.mk y m dd)
                    else Raise (ValueError "date value out of range")).
  { intros Hm dd Hdd. unfold Strptime.strptime. rewrite Hm.
    rewrite py_int_4, py_int_2, Hdd by assumption. reflexivity. }
  destruct ((1 <=? m)%Z && (m <=? 12)%Z) eqn:Hmonth;
    [|rewrite (valid_false_month _ _ _ Hmonth);
      destruct (is_digit g || Strptime.chr " " g); by apply Hraise, HM].
  rewrite ?Hmonth in HM. cbn [andb] in HM.
  destruct (is_digit g) eqn:Hg.
  - rewrite (digit_not_chr_space g Hg) in HM. cbn [andb orb] in *.
    rewrite orb_false_r in HM.
    destruct ((1 <=? 10 * digit g + digit h)%Z && (10 * digit g + digit h <=? 31)%Z) eqn:Hday.
    + rewrite (Hfull HM _ (py_int_2 g h Hg Hh)).
      destruct (Date.valid _ _ _); eauto.
    + rewrite (valid_false_day _ _ _ Hday). by apply Hraise, HM.
  - cbn [andb orb] in *.
    destruct (Strptime.chr " " g) eqn:Hs; [|by apply Hraise, HM].
    cbn [andb] in HM. rewrite Z.add_0_l.
    destruct (1 <=? digit h)%Z eqn:Hday.
    + rewrite (Hfull HM _ (py_int_space g h Hs Hh)).
      destruct (Date.valid _ _ _); eauto.
    + rewrite valid_false_day; [by apply Hraise, HM|]. by rewrite Hday.
Qed.

Lemma yyyymmdd_length s : String.length s ≠ 8%nat → yyyymmdd s = None.
Proof.
  destruct s as [|a [|b [|c [|d [|e [|f [|g [|h [|i s]]]]]]]]]; cbn; done.
Qed.

Lemma parse_date_spec (date_str : option string) :
  parse_date date_str = Ok (date_str ≫= yyyymmdd).
Proof.
  destruct date_str as [s|]; [|done]. cbn [mbind option_bind].
  unfold parse_date.
  destruct (Nat.eqb_spec (String.length s) 8) as [Hlen|Hlen].
  - destruct (String.eqb_spec s "0") as [->|_]; [discriminate Hlen|].
    destruct s as [|a [|b [|c [|d [|e [|f [|g [|h [|i s]]]]]]]]]; try done.
    pose proof (strptime_8 a b c d e f g h) as H. cbv zeta in H.
    cbn [str_truthy negb orb].
    destruct (yyyymmdd _) as [dt|]; [by rewrite H|].
    destruct H as [msg ->]. done.
  - rewrite orb_true_r. by rewrite yyyymmdd_length.
Qed.

(** ** [parse_date]: the claims *)



(** ** [parse_case_file] *)

Lemma parse_date_value_ok date_str : parse_date date_str = Ok (parse_date_value date_str).
Proof. apply parse_date_spec. Qed.

Lemma first_some_cons {A B} (f : A → option B) x l :
  first_some f (x :: l) = match f x with Some y => Some y | None => first_some f l end.
Proof. unfold first_some. cbn. by destruct (f x). Qed.

(** The classification loop, as a fold: codes accumulate, the three
    scalars keep the first value that is not [None]. *)
Lemma classification_loop groups : ∀ v,
  foldM classification_step groups v
  = Ok {| intl_classes := intl_classes v ++ all_codes "international-code" groups;
          us_classes := us_classes v ++ all_codes "us-code" groups;
          primary_class :=
            match primary_class v with
            | Some p => Some p
            | None => first_some (λ g, get_text g "primary-code") groups
            end;
          first_use_anywhere :=
            match first_use_anywhere v with
            | Some d => Some d
            | None => first_some
                        (λ g, parse_date_value (get_text g "first-use-anywhere-date")) groups
            end;
          first_use_commerce :=
            match first_use_commerce v with
            | Some d => Some d
            | None => first_some
                        (λ g, parse_date_value (get_text g "first-use-in-commerce-date")) groups
            end |}.
Proof.
  induction groups as [|g groups IH]; intros [intl us primary anywhere commerce].
  - cbn. rewrite !app_nil_r. by destruct primary, anywhere, commerce.
  - cbn [foldM]. unfold classification_step at 1. cbn [intl_classes us_classes
      primary_class first_use_anywhere first_use_commerce].
    rewrite !parse_date_value_ok.
    rewrite !first_some_cons.
    destruct anywhere as [a|], commerce as [c|]; cbn [rbind]; rewrite IH;
      cbn [intl_classes us_classes primary_class first_use_anywhere first_use_commerce];
      unfold all_codes; cbn [mbind list_bind]; rewrite <- !app_assoc;
      destruct primary; repeat case_match; reflexivity.
Qed.

Lemma parse_header_ok e record : ∃ record', parse_header e record = Ok record'.
Proof.
  unfold parse_header. destruct (find e "case-file-header"); [|by eauto].
  rewrite !parse_date_value_ok. cbn [rbind]. eauto.
Qed.

Lemma parse_classifications_ok e record :
  let groups := classification_groups e in
  parse_classifications e record
  = Ok (<["first_use_in_commerce_date" :=
            vdate (first_some (λ g, parse_date_value
                                      (get_text g "first-use-in-commerce-date")) groups)]>
        (<["first_use_anywhere_date" :=
            vdate (first_some (λ g, parse_date_value
                                      (get_text g "first-use-anywhere-date")) groups)]>
        (<["primary_class" := vstr (first_some (λ g, get_text g "primary-code") groups)]>
        (<["us_classes" := set_or_none (all_codes "us-code" groups)]>
        (<["international_classes" :=
            set_or_none (all_codes "international-code" groups)]> record))))).
Proof.
  intros groups. unfold parse_classifications. fold groups.
  rewrite classification_loop. reflexivity.
Qed.

(** The blocks after the classifications write other keys. *)
Ltac class_key Hk :=
  unfold classification_keys in Hk;
  repeat (apply elem_of_cons in Hk as [->|Hk]); [..|by apply elem_of_nil in Hk].

Lemma parse_design_codes_frame e record k :
  k ∈ classification_keys → parse_design_codes e record !! k = record !! k.
Proof.
  intros Hk. unfold parse_design_codes. class_key Hk; by rewrite lookup_insert_ne.
Qed.

Lemma parse_owners_frame e record k :
  k ∈ classification_keys → parse_owners e record !! k = record !! k.
Proof.
  intros Hk. unfold parse_owners.
  match goal with |- context [VOwners ?l] => generalize l end.
  intros [|primary_owner owners]; class_key Hk;
    rewrite ?lookup_insert_ne by done; reflexivity.
Qed.

Lemma parse_correspondent_frame e record k :
  k ∈ classification_keys → parse_correspondent e record !! k = record !! k.
Proof.
  intros Hk. unfold parse_correspondent.
  destruct (find e "correspondent"); [|done].
  class_key Hk; by rewrite lookup_insert_ne.
Qed.

Lemma parse_statements_frame e record k :
  k ∈ classification_keys → parse_statements e record !! k = record !! k.
Proof.
  intros Hk. unfold parse_statements. class_key Hk; by rewrite lookup_insert_ne.
Qed.

Lemma parse_international_registration_ok e record :
  ∃ record', parse_international_registration e record = Ok record'
             ∧ ∀ k, k ∈ classification_keys → record' !! k = record !! k.
Proof.
  unfold parse_international_registration.
  destruct (find e "international-registration") as [ir|]; [|by eauto].
  rewrite parse_date_value_ok. cbn [rbind]. eexists; split; [reflexivity|].
  intros k Hk. class_key Hk; rewrite ?lookup_insert_ne by done; reflexivity.
Qed.

(** [parse_case_file] raises for no element, and returns a record exactly
    when the element has a serial number. *)
Lemma parse_case_file_ok e :
  match get_text e "serial-number" with
  | Some (String _ _ as serial) =>
      ∃ r, parse_case_file e = Ok (Some r) ∧ serial_number r = serial
           ∧ ∀ k record, k ∈ classification_keys →
               parse_classifications e ∅ = Ok record →
               fields r !! k = record !! k
  | _ => parse_case_file e = Ok None
  end.
Proof.
  unfold parse_case_file.
  destruct (get_text e "serial-number") as [[|c serial]|]; [done| |done].
  rewrite parse_date_value_ok. cbn [rbind].
  match goal with |- context [parse_header e ?m] =>
    destruct (parse_header_ok e m) as [rh ->] end.
  cbn [rbind]. rewrite parse_classifications_ok. cbn [rbind].
  match goal with |- context [parse_international_registration e ?m] =>
    destruct (parse_international_registration_ok e m) as (rf & -> & Hrf) end.
  cbn [rbind]. eexists; split; [reflexivity|]. split; [reflexivity|].
  intros k record Hk. rewrite parse_classifications_ok. intros [= <-].
  cbn [fields]. rewrite Hrf by done.
  rewrite parse_statements_frame, parse_correspondent_frame,
    parse_owners_frame, parse_design_codes_frame by done.
  class_key Hk; rewrite ?lookup_insert_ne by done; by rewrite !lookup_insert_eq.
Qed.

Lemma set_or_none_code_set xs : is_code_set xs (set_or_none xs).
Proof.
  destruct xs as [|x xs]; [done|]. cbn.
  set (ys := x :: xs). exists (list_of_set ys).
  assert (Hnd : NoDup (list_of_set ys)) by (unfold list_of_set; apply NoDup_elements).
  assert (Hin : ∀ c, c ∈ list_of_set ys ↔ c ∈ ys).
  { intros c. unfold list_of_set. rewrite elem_of_elements. apply elem_of_list_to_set. }
  repeat split; try done; try apply Hin.
  intros c Hc. apply NoDup_ListNoDup in Hnd.
  apply (proj1 (NoDup_count_occ' string_dec _) Hnd).
  apply list_elem_of_In, Hin, Hc.
Qed.

(** C9.  For a case-file element from which a record is built, the
    international and US codes of all its classification groups are stored
    as deduplicated sets, null when there is no code (each code, such as 025
    found in two groups, occurs exactly once); the primary code and the two
    first-use dates are the first values that are not null, in document
    order. *)
Theorem C9_classifications (e : Element) (r : Rec) :
  parse_case_file e = Ok (Some r) →
  let groups := classification_groups e in
  is_code_set (all_codes "international-code" groups) (get r "international_classes")
  ∧ is_code_set (all_codes "us-code" groups) (get r "us_classes")
  ∧ get r "primary_class" = vstr (first_some (λ g, get_text g "primary-code") groups)
  ∧ get r "first_use_anywhere_date"
    = vdate (first_some (λ g, parse_date_value (get_text g "first-use-anywhere-date")) groups)
  ∧ get r "first_use_in_commerce_date"
    = vdate (first_some (λ g, parse_date_value (get_text g "first-use-in-commerce-date"))
               groups).
Proof.
  intros Hr groups. pose proof (parse_case_file_ok e) as Hok.
  destruct (get_text e "serial-number") as [[|c serial]|];
    [congruence| |congruence].
  destruct Hok as (r' & Hr' & _ & Hk). rewrite Hr in Hr'. injection Hr' as <-.
  pose proof (parse_classifications_ok e ∅) as Hc. cbv zeta in Hc. fold groups in Hc.
  unfold get.
  assert (Hkeys : ∀ k, k ∈ classification_keys → fields r !! k = _ !! k)
    by (intros k Hin; exact (Hk k _ Hin Hc)).
  rewrite !Hkeys by (unfold classification_keys; set_solver).
  rewrite ?lookup_insert_ne by done. rewrite !lookup_insert_eq. cbn [default].
  repeat split; try reflexivity; apply set_or_none_code_set.
Qed.

Lemma C9_witness :
  ∃ r, parse_case_file sample_case_file = Ok (Some r)
       ∧ get r "international_classes" = VList ["030"; "025"; "009"]
       ∧ is_code_set ["025"; "009"; "025"; "030"] (get r "international_classes")
       ∧ get r "primary_class" = VStr "025"
       ∧ get r "first_use_anywhere_date" = VDate (Date.mk 2020 1 1).
Proof.
  eexists. split; [vm_compute; reflexivity|].
  match goal with |- context [get ?r _] =>
    pose proof (C9_classifications sample_case_file r ltac:(vm_compute; reflexivity)) as H
  end.
  cbv zeta in H. destruct H as (Hi & _ & Hp & Ha & _).
  split; [vm_compute; reflexivity|].
  split; [exact Hi|]. split; [rewrite Hp; vm_compute; reflexivity|].
  rewrite Ha. vm_compute. reflexivity.
Defined.

(** ** Order on dates and date keys *)

Lemma key_leb_total a b : key_leb a b = true ∨ key_leb b a = true.
Proof.
  destruct a as [[y1 m1 d1] [y2 m2 d2]], b as [[y3 m3 d3] [y4 m4 d4]].
  unfold key_leb, Date.leb, Date.ltb, Date.eqb; cbn.
  rewrite !orb_true_iff, !andb_true_iff, !orb_true_iff, !andb_true_iff,
    !orb_true_iff, !andb_true_iff, !Z.ltb_lt, !Z.eqb_eq. lia.
Qed.

Lemma key_leb_trans a b c :
  key_leb a b = true → key_leb b c = true → key_leb a c = true.
Proof.
  destruct a as [[y1 m1 d1] [y2 m2 d2]], b as [[y3 m3 d3] [y4 m4 d4]],
           c as [[y5 m5 d5] [y6 m6 d6]].
  unfold key_leb, Date.leb, Date.ltb, Date.eqb; cbn.
  rewrite !orb_true_iff, !andb_true_iff, !orb_true_iff, !andb_true_iff,
    !orb_true_iff, !andb_true_iff, !Z.ltb_lt, !Z.eqb_eq. lia.
Qed.

Lemma key_leb_refl a : key_leb a a = true.
Proof. by destruct (key_leb_total a a). Qed.

(** ** The stable sort *)

Section stable_sort_facts.

Context {A K : Type} (leb : K → K → bool) (key : A → K).
Hypothesis leb_total : ∀ a b, leb a b = true ∨ leb b a = true.
Hypothesis leb_trans : ∀ a b c, leb a b = true → leb b c = true → leb a c = true.

Lemma insert_by_perm x l : insert_by leb key x l ≡ₚ x :: l.
Proof.
  induction l as [|y l IH]; cbn; [done|].
  destruct (leb (key x) (key y)); [done|].
  rewrite IH. apply Permutation_swap.
Qed.

Lemma sort_by_perm l : sort_by leb key l ≡ₚ l.
Proof.
  induction l as [|x l IH]; cbn; [done|].
  rewrite insert_by_perm. by rewrite IH.
Qed.

Lemma insert_by_head x l :
  head (insert_by leb key x l)
  = Some (match head l with
          | Some y => if leb (key x) (key y) then x else y
          | None => x
          end).
Proof. destruct l as [|y l]; cbn; [done|]. by destruct (leb (key x) (key y)). Qed.

(** The head of the sorted list is an element below every element. *)
Lemma sort_by_head l x :
  head (sort_by leb key l) = Some x →
  x ∈ l ∧ ∀ y, y ∈ l → leb (key x) (key y) = true.
Proof.
  revert x. induction l as [|a l IH]; intros x; [done|].
  change (sort_by leb key (a :: l)) with (insert_by leb key a (sort_by leb key l)).
  rewrite insert_by_head. intros [= Hx].
  assert (Hrefl : ∀ k, leb k k = true) by (intros k; by destruct (leb_total k k)).
  destruct (head (sort_by leb key l)) as [h|] eqn:Hh.
  - destruct (IH h eq_refl) as [Hin Hmin].
    destruct (leb (key a) (key h)) eqn:Hah; subst x.
    + split; [left|]. intros y [->|Hy]%elem_of_cons; [apply Hrefl|].
      eapply leb_trans; [exact Hah | by apply Hmin].
    + split; [by right|]. intros y [->|Hy]%elem_of_cons; [|by apply Hmin].
      destruct (leb_total (key a) (key h)); congruence.
  - subst x. assert (l = []) as ->.
    { apply Permutation_nil_r. rewrite <- (sort_by_perm l).
      by destruct (sort_by leb key l). }
    split; [left|]. intros y Hy%list_elem_of_singleton. subst y. apply Hrefl.
Qed.

Lemma sort_by_head_is_Some l : l ≠ [] → is_Some (head (sort_by leb key l)).
Proof.
  destruct l as [|a l]; [done|]. intros _.
  change (sort_by leb key (a :: l)) with (insert_by leb key a (sort_by leb key l)).
  rewrite insert_by_head. eauto.
Qed.

Lemma insert_by_sorted x l :
  Sorted (λ a b, leb (key a) (key b) = true) l →
  Sorted (λ a b, leb (key a) (key b) = true) (insert_by leb key x l).
Proof.
  induction 1 as [|y l Hl IH Hhd]; cbn; [by repeat constructor|].
  destruct (leb (key x) (key y)) eqn:Hxy.
  - constructor; [by constructor|]. by constructor.
  - constructor; [exact IH|].
    assert (Hyx : leb (key y) (key x) = true)
      by (destruct (leb_total (key x) (key y)); congruence).
    destruct l as [|z l]; cbn; [by constructor|].
    destruct (leb (key x) (key z)); constructor; [done|].
    by inversion Hhd.
Qed.

Lemma sort_by_sorted l : Sorted (λ a b, leb (key a) (key b) = true) (sort_by leb key l).
Proof. induction l; cbn; [constructor | by apply insert_by_sorted]. Qed.

End stable_sort_facts.

(** ** Grouping by serial number *)

Lemma group_append_keys g r :
  map fst (group_append g r)
  = map fst g ++ (if decide (serial_number r ∈ map fst g) then [] else [serial_number r]).
Proof.
  induction g as [|[k es] g IH]; cbn.
  - rewrite decide_False; [done|]. apply not_elem_of_nil.
  - destruct (decide (k = serial_number r)) as [->|Hne]; cbn.
    + rewrite decide_True by left. by rewrite app_nil_r.
    + rewrite IH. f_equal.
      destruct (decide (serial_number r ∈ map fst g)) as [Hin|Hnin].
      * rewrite decide_True; [done|]. by right.
      * rewrite decide_False; [done|]. intros [?|?]%elem_of_cons; congruence.
Qed.

Lemma group_append_NoDup g r :
  NoDup (map fst g) → NoDup (map fst (group_append g r)).
Proof.
  intros Hnd. rewrite group_append_keys.
  destruct (decide (serial_number r ∈ map fst g)); [by rewrite app_nil_r|].
  apply NoDup_app. split; [done|]. split; [|apply NoDup_singleton].
  intros x Hx Hx'%list_elem_of_singleton. by subst x.
Qed.

Lemma entries_cons s k es g :
  entries s ((k, es) :: g) = (if decide (k = s) then es else []) ++ entries s g.
Proof. reflexivity. Qed.

Lemma entries_notin s g : s ∉ map fst g → entries s g = [].
Proof.
  induction g as [|[k es] g IH]; [done|]. rewrite entries_cons. cbn. intros Hnin.
  rewrite decide_False by (intros ->; apply Hnin; left).
  cbn. apply IH. intros Hin. apply Hnin. by right.
Qed.

Lemma entries_elem_of s es g :
  NoDup (map fst g) → (s, es) ∈ g → entries s g = es.
Proof.
  induction g as [|[k es'] g IH]; [by intros _ ?%elem_of_nil|].
  rewrite entries_cons. cbn [map fst].
  intros [Hk Hnd]%NoDup_cons [[= <- <-]|Hin]%elem_of_cons.
  - rewrite decide_True by done. rewrite entries_notin by done. apply app_nil_r.
  - rewrite decide_False.
    + cbn. by apply IH.
    + intros ->. apply Hk. apply list_elem_of_fmap. by exists (s, es).
Qed.

Lemma entries_group_append s g r :
  NoDup (map fst g) →
  entries s (group_append g r)
  = entries s g ++ (if decide (serial_number r = s) then [r] else []).
Proof.
  induction g as [|[k es] g IH].
  - intros _. cbn. by destruct (decide (serial_number r = s)).
  - cbn [map fst group_append]. intros [Hk Hnd]%NoDup_cons.
    destruct (decide (k = serial_number r)) as [->|Hne]; rewrite !entries_cons.
    + destruct (decide (serial_number r = s)) as [Heq|Hs].
      * subst s. rewrite (entries_notin _ g) by done. by rewrite !app_nil_r.
      * by rewrite app_nil_r.
    + rewrite IH by done. by rewrite app_assoc.
Qed.

Lemma group_append_nonempty g r :
  Forall (λ p, p.2 ≠ []) g → Forall (λ p, p.2 ≠ []) (group_append g r).
Proof.
  induction 1 as [|[k es] g Hes Hg IH]; cbn; [by repeat constructor|].
  destruct (decide (k = serial_number r)); constructor; try done.
  cbn. by destruct es.
Qed.

Lemma group_append_concat g r :
  concat (map snd (group_append g r)) ≡ₚ concat (map snd g) ++ [r].
Proof.
  induction g as [|[k es] g IH]; cbn; [done|].
  destruct (decide (k = serial_number r)); cbn.
  - rewrite <- !app_assoc. f_equiv. apply Permutation_app_comm.
  - rewrite IH. by rewrite app_assoc.
Qed.

(** The grouping dict after the loop over [records], started from [g]. *)
Lemma fold_group_append records : ∀ g,
  NoDup (map fst g) → Forall (λ p, p.2 ≠ []) g →
  let g' := fold_left group_append records g in
  NoDup (map fst g')
  ∧ Forall (λ p, p.2 ≠ []) g'
  ∧ (∀ s, entries s g' = entries s g ++ with_serial s records)
  ∧ (∀ s, s ∈ map fst g' ↔ s ∈ map fst g ∨ s ∈ map serial_number records)
  ∧ concat (map snd g') ≡ₚ concat (map snd g) ++ records.
Proof.
  induction records as [|r records IH]; intros g Hnd Hne; cbn [fold_left].
  - repeat split; try done.
    + intros s. by rewrite app_nil_r.
    + by left.
    + intros [?|?%elem_of_nil]; done.
    + by rewrite app_nil_r.
  - destruct (IH (group_append g r) (group_append_NoDup g r Hnd)
                (group_append_nonempty g r Hne)) as (H1 & H2 & H3 & H4 & H5).
    cbv zeta in *. repeat split; try done.
    + intros s. rewrite H3, entries_group_append by done.
      rewrite <- app_assoc. f_equal. unfold with_serial. rewrite filter_cons.
      by destruct (decide (serial_number r = s)).
    + rewrite H4, group_append_keys. rewrite elem_of_app.
      destruct (decide (serial_number r ∈ map fst g)) as [Hin|Hnin].
      * intros [[?|?%elem_of_nil]|?]; try done; [by left | right; by right].
      * intros [[?|Hx%list_elem_of_singleton]|?];
          [by left | subst s; right; left | right; by right].
    + rewrite H4, group_append_keys. rewrite elem_of_app.
      intros [?|[->|?]%elem_of_cons]; [left; by left | | by right].
      destruct (decide (serial_number r ∈ map fst g)); left; [by left|].
      right. by apply list_elem_of_singleton.
    + rewrite H5, group_append_concat. rewrite <- app_assoc. done.
Qed.

Lemma group_by_serial_spec records :
  let g := group_by_serial records in
  NoDup (map fst g)
  ∧ (∀ s es, (s, es) ∈ g → es = with_serial s records ∧ es ≠ [])
  ∧ (∀ s, s ∈ map fst g ↔ s ∈ map serial_number records)
  ∧ concat (map snd g) ≡ₚ records.
Proof.
  destruct (fold_group_append records [] (NoDup_nil_2) (Forall_nil_2 _))
    as (H1 & H2 & H3 & H4 & H5).
  cbv zeta in *. fold (group_by_serial records) in *.
  repeat split; try done.
  - transitivity (entries s (group_by_serial records));
      [symmetry; by apply entries_elem_of | exact (H3 s)].
  - rewrite Forall_forall in H2. by apply (H2 (s, es)).
  - intros Hs. apply H4 in Hs as [?%elem_of_nil|?]; done.
  - intros Hs. apply H4. by right.
Qed.

(** ** The deduplicator *)

Lemma newest_spec es :
  es ≠ [] →
  ∃ r, newest es = Some r ∧ r ∈ es
       ∧ ∀ y, y ∈ es → key_leb (date_key y) (date_key r) = true.
Proof.
  intros Hne.
  assert (Hsort : ∃ r, head (sort_by_reverse key_leb date_key es) = Some r ∧ r ∈ es
                       ∧ ∀ y, y ∈ es → key_leb (date_key y) (date_key r) = true).
  { unfold sort_by_reverse.
    destruct (sort_by_head_is_Some (flip key_leb) date_key es Hne) as [r Hr].
    exists r. split; [done|].
    apply (sort_by_head (flip key_leb) date_key); [| |done].
    - intros a b. unfold flip. destruct (key_leb_total a b); auto.
    - intros a b c. unfold flip. eauto using key_leb_trans. }
  destruct es as [|e [|e' es]]; [done| |exact Hsort].
  exists e. split; [done|]. split; [left|].
  intros y Hy%list_elem_of_singleton. subst y. apply key_leb_refl.
Qed.

(** One record is kept per group: the group's newest entry. *)
Lemma deduplicate_groups records :
  Forall2 (λ p r, newest p.2 = Some r) (group_by_serial records)
          (_deduplicate_records records).
Proof.
  destruct (group_by_serial_spec records) as (_ & Hg & _ & _). cbv zeta in Hg.
  unfold _deduplicate_records.
  induction (group_by_serial records) as [|[s es] g IH]; [constructor|].
  destruct (Hg s es ltac:(left)) as [_ Hne].
  destruct (newest_spec es Hne) as (r & Hr & _).
  cbn. rewrite Hr. constructor; [done|].
  apply IH. intros s' es' Hin. apply Hg. by right.
Qed.

Lemma deduplicate_serials records :
  map serial_number (_deduplicate_records records) = map fst (group_by_serial records).
Proof.
  destruct (group_by_serial_spec records) as (_ & Hg & _ & _). cbv zeta in Hg.
  pose proof (deduplicate_groups records) as HF.
  induction HF as [|[s es] r g l Hr HF IH]; [done|]. cbn. f_equal.
  - destruct (Hg s es ltac:(left)) as [-> Hne].
    destruct (newest_spec _ Hne) as (r' & Hr' & Hin & _). cbn in Hr.
    rewrite Hr in Hr'. injection Hr' as <-.
    unfold with_serial in Hin. by apply list_elem_of_filter in Hin as [? _].
  - apply IH. intros s' es' Hin. apply Hg. by right.
Qed.

Lemma deduplicate_elem_of records r :
  r ∈ _deduplicate_records records →
  newest (with_serial (serial_number r) records) = Some r.
Proof.
  intros Hr.
  destruct (group_by_serial_spec records) as (_ & Hg & _ & _). cbv zeta in Hg.
  pose proof (deduplicate_groups records) as HF.
  apply list_elem_of_lookup in Hr as [i Hi].
  destruct (Forall2_lookup_r _ _ _ _ _ HF Hi) as ([s es] & Hgi & Hnew).
  apply list_elem_of_lookup_2 in Hgi.
  destruct (Hg s es Hgi) as [-> Hne]. cbn in Hnew.
  destruct (newest_spec _ Hne) as (r' & Hr' & Hin & _).
  rewrite Hnew in Hr'. injection Hr' as <-.
  unfold with_serial in Hin. apply list_elem_of_filter in Hin as [-> _]. done.
Qed.

Lemma deduplicate_NoDup records :
  NoDup (map serial_number (_deduplicate_records records)).
Proof.
  rewrite deduplicate_serials. by destruct (group_by_serial_spec records).
Qed.

Lemma deduplicate_serial_elem_of records s :
  s ∈ map serial_number (_deduplicate_records records)
  ↔ s ∈ map serial_number records.
Proof.
  rewrite deduplicate_serials.
  destruct (group_by_serial_spec records) as (_ & _ & H & _). apply H.
Qed.

Lemma deduplicate_newest records r :
  r ∈ _deduplicate_records records →
  r ∈ records
  ∧ ∀ r', r' ∈ records → serial_number r' = serial_number r →
          key_leb (date_key r') (date_key r) = true.
Proof.
  intros Hr%deduplicate_elem_of.
  assert (Hne : with_serial (serial_number r) records ≠ []).
  { intros Heq. by rewrite Heq in Hr. }
  destruct (newest_spec _ Hne) as (r0 & Hr0 & Hin & Hmax).
  rewrite Hr in Hr0. injection Hr0 as <-.
  unfold with_serial in *. split.
  - by apply list_elem_of_filter in Hin as [_ ?].
  - intros r' Hr' Hs. apply Hmax. by apply list_elem_of_filter.
Qed.




Lemma above_floor_transaction_date r d :
  get r "transaction_date" = VDate d → Date.ltb min_date d = true → above_floor r.
Proof.
  intros Hd Hlt. unfold above_floor, key_leb, date_key. rewrite Hd.
  cbn [fst snd or_min_date].
  assert (Hgt : Date.ltb d min_date = false ∧ Date.eqb d min_date = false).
  { destruct d as [y m dd]. unfold Date.ltb, Date.eqb, min_date in *.
    cbn [Date.year Date.month Date.day] in *.
    split; apply not_true_iff_false; intros H;
      rewrite ?orb_true_iff, ?andb_true_iff, ?orb_true_iff, ?andb_true_iff,
        ?Z.ltb_lt, ?Z.eqb_eq in H, Hlt; lia. }
  destruct Hgt as [-> ->]. reflexivity.
Qed.



(** ** The sort by serial number *)

Lemma serial_leb_total a b : serial_leb a b = true ∨ serial_leb b a = true.
Proof.
  unfold serial_leb. rewrite !bool_decide_eq_true.
  destruct (total String.le a b); auto.
Qed.

Lemma serial_leb_trans a b c :
  serial_leb a b = true → serial_leb b c = true → serial_leb a c = true.
Proof.
  unfold serial_leb. rewrite !bool_decide_eq_true. intros. by etrans.
Qed.

Lemma sorted_records_perm records :
  sorted_records records ≡ₚ _deduplicate_records records.
Proof. apply sort_by_perm. Qed.

Lemma trademark_values_serials records :
  map fst (trademark_values records) = map serial_number (sorted_records records).
Proof.
  unfold trademark_values. rewrite map_map. reflexivity.
Qed.

Lemma trademark_values_Sorted records :
  Sorted String.le (map fst (trademark_values records)).
Proof.
  rewrite trademark_values_serials.
  pose proof (sort_by_sorted serial_leb serial_number serial_leb_total
                (_deduplicate_records records)) as H.
  fold (sorted_records records) in H.
  induction H as [|r l Hl IH Hhd]; cbn; [constructor|].
  constructor; [exact IH|].
  destruct Hhd as [|r' l Hr]; cbn; constructor.
  unfold serial_leb in Hr. by apply bool_decide_eq_true in Hr.
Qed.

(** No statement names a serial number twice. *)
Lemma trademark_values_NoDup records :
  NoDup (map fst (trademark_values records)).
Proof.
  rewrite trademark_values_serials, sorted_records_perm.
  apply deduplicate_NoDup.
Qed.

Lemma trademark_values_elem_of records s :
  s ∈ map fst (trademark_values records) ↔ s ∈ map serial_number records.
Proof.
  rewrite trademark_values_serials, sorted_records_perm.
  apply deduplicate_serial_elem_of.
Qed.

Lemma trademark_values_order_independent records records' :
  records' ≡ₚ records →
  map fst (trademark_values records') = map fst (trademark_values records).
Proof.
  intros Hp. apply (Sorted_unique String.le); try apply trademark_values_Sorted.
  apply NoDup_Permutation; try apply trademark_values_NoDup.
  intros s. rewrite !trademark_values_elem_of. by rewrite Hp.
Qed.

(** ** The write *)

Lemma execute_values_written now rows : ∀ d,
  written (execute_values now d rows) = written d ++ map fst rows.
Proof.
  unfold execute_values.
  induction rows as [|[s vals] rows IH]; intros d; cbn [fold_left map].
  - by rewrite app_nil_r.
  - rewrite IH. cbn. by rewrite <- app_assoc.
Qed.

Lemma execute_values_sub_tables now rows : ∀ d,
  trademark_owners (execute_values now d rows) = trademark_owners d
  ∧ trademark_statements (execute_values now d rows) = trademark_statements d.
Proof.
  unfold execute_values.
  induction rows as [|[s vals] rows IH]; intros d; cbn [fold_left]; [done|].
  destruct (IH (upsert_row now d (s, vals))) as [-> ->]. done.
Qed.

Lemma execute_values_lookup_notin now rows s : ∀ d,
  s ∉ map fst rows →
  trademarks (execute_values now d rows) !! s = trademarks d !! s.
Proof.
  unfold execute_values.
  induction rows as [|[k vals] rows IH]; intros d Hs; cbn [fold_left]; [done|].
  rewrite IH by (intros ?; apply Hs; by right).
  cbn. apply lookup_insert_ne. intros ->. apply Hs. left.
Qed.

Lemma execute_values_lookup_elem_of now rows s vals : ∀ d,
  NoDup (map fst rows) → (s, vals) ∈ rows →
  trademarks (execute_values now d rows) !! s
  = Some (row_after now (trademarks d !! s) vals).
Proof.
  induction rows as [|[k vals'] rows IH]; intros d Hnd Hin;
    [by apply elem_of_nil in Hin|].
  cbn [map fst] in Hnd. apply NoDup_cons in Hnd as [Hk Hnd].
  change (execute_values now d ((k, vals') :: rows))
    with (execute_values now (upsert_row now d (k, vals')) rows).
  apply elem_of_cons in Hin as [[= <- <-]|Hin].
  - rewrite execute_values_lookup_notin by done.
    cbn. rewrite lookup_insert_eq. unfold row_after. by destruct (trademarks d !! s).
  - rewrite IH by done. cbn. rewrite lookup_insert_ne; [done|].
    intros ->. apply Hk. apply list_elem_of_fmap. by exists (s, vals).
Qed.

Lemma trademark_values_elem_of_record records r :
  r ∈ _deduplicate_records records →
  trademark_value r ∈ trademark_values records.
Proof.
  intros Hr. unfold trademark_values. apply list_elem_of_fmap.
  exists r. split; [done|]. by rewrite sorted_records_perm.
Qed.

(** C7.  Whatever the order of the input batch, the rows are written in
    ascending order of serial number: the rows [_do_upsert] writes are those
    of the sorted deduplicated batch, their serial numbers ascend strictly
    (no serial number twice), they are the serial numbers of the batch, and
    a permutation of the batch writes the same sequence of serial numbers. *)
Theorem C7_write_order (now : Z) (d : DB) (records records' : list Rec) :
  let serials := map fst (trademark_values records) in
  written (_do_upsert now d records).1 = written d ++ serials
  ∧ Sorted String.le serials
  ∧ NoDup serials
  ∧ (∀ s, s ∈ serials ↔ s ∈ map serial_number records)
  ∧ (records' ≡ₚ records → map fst (trademark_values records') = serials).
Proof.
  intros serials. repeat split.
  - apply execute_values_written.
  - apply trademark_values_Sorted.
  - apply trademark_values_NoDup.
  - by apply trademark_values_elem_of.
  - by apply trademark_values_elem_of.
  - apply trademark_values_order_independent.
Qed.

Lemma C7_witness :
  [sample_jun; sample_undated; sample_jan] ≡ₚ [sample_undated; sample_jan; sample_jun]
  ∧ written (_do_upsert 0 empty_db [sample_jun; sample_undated; sample_jan]).1 = ["A"; "S"]
  ∧ map fst (trademark_values [sample_undated; sample_jan; sample_jun]) = ["A"; "S"].
Proof.
  assert (Hp : [sample_jun; sample_undated; sample_jan]
               ≡ₚ [sample_undated; sample_jan; sample_jun]).
  { etrans; [apply Permutation_swap|]. apply perm_skip. apply Permutation_swap. }
  split; [exact Hp|].
  destruct (C7_write_order 0 empty_db [sample_undated; sample_jan; sample_jun]
              [sample_jun; sample_undated; sample_jan]) as (_ & _ & _ & _ & Hord).
  destruct (C7_write_order 0 empty_db [sample_jun; sample_undated; sample_jan] [])
    as (Hw & _).
  rewrite Hw, (Hord Hp). split; vm_compute; reflexivity.
Defined.



(** C1: what the code does.  [_do_upsert] changes the table [trademarks]
    only: for every batch the owner table and the statement table are what
    they were.  The record of [sample_owned_case_file] carries one owner and
    one statement; after its batch is persisted into an empty database the
    [trademarks] row exists and both sub-tables are still empty. *)
Theorem C1_sub_tables_not_written :
  (∀ now d records,
     trademark_owners (_do_upsert now d records).1 = trademark_owners d
     ∧ trademark_statements (_do_upsert now d records).1 = trademark_statements d)
  ∧ (∃ o, get sample_owned "owners" = VOwners [o] ∧ party_name o = Some "ACME")
  ∧ get sample_owned "statements" = VStatements [("GS0251", "Shirts")]
  ∧ (let '(w, result) := upsert_batch [sample_owned] default_max_retries (fresh_world []) in
     result = Ok 1%nat
     ∧ is_Some (trademarks (db w) !! "97000001")
     ∧ trademark_owners (db w) = ∅
     ∧ trademark_statements (db w) = ∅).
Proof.
  split; [intros now d records; apply execute_values_sub_tables|].
  split; [eexists; split; vm_compute; reflexivity|].
  split; [vm_compute; reflexivity|].
  destruct (upsert_batch _ _ _) as [w result] eqn:Hrun.
  vm_compute in Hrun. injection Hrun as <- <-. cbn [db trademarks].
  repeat split; try reflexivity. eexists. vm_compute. reflexivity.
Qed.

(** ** Counting *)

Lemma groups_sum_ge (g : list (string * list Rec)) s es :
  Forall (λ p, p.2 ≠ []) g → (s, es) ∈ g →
  (length g + (length es - 1) ≤ group_sizes g)%nat.
Proof.
  induction 1 as [|[k e] g Hk Hg IH]; [by intros ?%elem_of_nil|].
  cbn [group_sizes length snd] in *.
  assert (Hlen : (length g ≤ group_sizes g)%nat).
  { clear -Hg. induction Hg as [|[k' e'] g He' Hg IH]; cbn [group_sizes length]; [lia|].
    destruct e'; [done|]. cbn [length]. lia. }
  assert (0 < length e)%nat by (destruct e; [done|cbn; lia]).
  intros [[= <- <-]|Hin]%elem_of_cons; [lia|].
  specialize (IH Hin). lia.
Qed.

Lemma groups_sum_eq (g : list (string * list Rec)) s es :
  NoDup (map fst g) → (s, es) ∈ g → es ≠ [] →
  (∀ s' es', (s', es') ∈ g → s' ≠ s → length es' = 1%nat) →
  group_sizes g = (length g + (length es - 1))%nat.
Proof.
  intros Hnd Hin Hes Hone.
  assert (Hothers : ∀ g', (∀ s' es', (s', es') ∈ g' → s' ≠ s ∧ length es' = 1%nat) →
                          group_sizes g' = length g').
  { induction g' as [|[k e] g' IH]; intros H; cbn [group_sizes length]; [done|].
    destruct (H k e ltac:(left)) as [_ ->].
    rewrite IH; [done|]. intros s' es' ?. apply (H s' es'). by right. }
  assert (0 < length es)%nat by (destruct es; [done|cbn; lia]).
  induction g as [|[k e] g IH]; [by apply elem_of_nil in Hin|].
  cbn [map fst] in Hnd. apply NoDup_cons in Hnd as [Hk Hnd].
  cbn [group_sizes length].
  apply elem_of_cons in Hin as [[= <- <-]|Hin].
  - rewrite Hothers; [lia|]. intros s' es' Hin'.
    assert (s' ≠ s).
    { intros ->. apply Hk. apply list_elem_of_fmap. by exists (s, es'). }
    split; [done|]. apply (Hone s' es'); [by right|done].
  - assert (k ≠ s).
    { intros ->. apply Hk. apply list_elem_of_fmap. by exists (s, es). }
    rewrite (Hone k e) by (by left || done).
    rewrite IH; [lia|done|done|].
    intros s' es' ? ?. apply (Hone s' es'); [by right|done].
Qed.

Lemma group_sizes_concat g : length (concat (map snd g)) = group_sizes g.
Proof.
  induction g as [|[k es] g IH]; [done|].
  cbn [map snd concat group_sizes]. by rewrite length_app, IH.
Qed.

Lemma deduplicate_length records :
  length (_deduplicate_records records) = length (group_by_serial records).
Proof.
  rewrite <- (length_map serial_number), deduplicate_serials. apply length_map.
Qed.

Lemma records_length records :
  length records = group_sizes (group_by_serial records).
Proof.
  destruct (group_by_serial_spec records) as (_ & _ & _ & Hp). cbv zeta in Hp.
  rewrite <- Hp at 1. apply group_sizes_concat.
Qed.

Lemma group_elem_of records s :
  with_serial s records ≠ [] → (s, with_serial s records) ∈ group_by_serial records.
Proof.
  intros Hne.
  destruct (group_by_serial_spec records) as (_ & Hg & Hk & _). cbv zeta in *.
  assert (Hs : s ∈ map fst (group_by_serial records)).
  { apply Hk. destruct (with_serial s records) as [|r l] eqn:Hw; [done|].
    assert (Hr : r ∈ with_serial s records) by (rewrite Hw; left).
    unfold with_serial in Hr. apply list_elem_of_filter in Hr as [<- Hr].
    apply list_elem_of_fmap. by exists r. }
  apply list_elem_of_fmap in Hs as ([s' es] & -> & Hin).
  cbn [fst]. destruct (Hg _ _ Hin) as [Heq _]. by rewrite <- Heq.
Qed.

(** The count reported for a batch against the rows written for it. *)
Lemma reported_count_excess records s :
  let k := length (with_serial s records) in
  (1 ≤ k)%nat →
  (length (_deduplicate_records records) + (k - 1) ≤ length records)%nat
  ∧ ((∀ s', s' ≠ s → (length (with_serial s' records) ≤ 1)%nat) →
     length records = length (_deduplicate_records records) + (k - 1)).
Proof.
  intros k Hk.
  assert (Hne : with_serial s records ≠ []).
  { intros Heq. subst k. rewrite Heq in Hk. cbn in Hk. lia. }
  pose proof (group_elem_of records s Hne) as Hin.
  destruct (group_by_serial_spec records) as (Hnd & Hg & _ & _). cbv zeta in *.
  rewrite deduplicate_length, records_length. split.
  - apply (groups_sum_ge _ s); [|done].
    apply Forall_forall. intros [s' es'] Hin'. by destruct (Hg _ _ Hin').
  - intros Hone. apply (groups_sum_eq _ s); try done.
    intros s' es' Hin' Hs'. destruct (Hg _ _ Hin') as [-> Hne'].
    specialize (Hone s' Hs'). destruct (with_serial s' records); [done|].
    cbn in *. lia.
Qed.

(** ** The retry loop *)

Lemma upsert_loop_success records m rem attempt last_error w rest :
  faults w = None :: rest ∨ (faults w = [] ∧ rest = []) →
  upsert_loop records m (S rem) attempt last_error w
  = (written_world records w 1 rest [], Ok (length records)).
Proof.
  intros Hf. cbn [upsert_loop]. unfold next_fault.
  destruct Hf as [Hf|[Hf ->]]; rewrite Hf;
    unfold _do_upsert, emit, written_world; cbn [db clock faults events app];
    rewrite <- app_assoc; reflexivity.
Qed.

Lemma upsert_loop_retry records m rem attempt last_error w e rest :
  faults w = Some (WriteFails e) :: rest → is_lock_error e = true →
  (attempt < m - 1)%Z →
  upsert_loop records m (S rem) attempt last_error w
  = upsert_loop records m rem (attempt + 1) (Some e)
      (mkWorld (db w) (clock w + 1) rest (events w ++ retry_events m attempt)).
Proof.
  intros Hf He Hlt. cbn [upsert_loop]. unfold next_fault. rewrite Hf.
  cbn [fault_exn]. rewrite He.
  destruct (Z.ltb_spec attempt (m - 1)) as [_|?]; [|lia].
  unfold release, emit. cbn [db clock faults events].
  rewrite <- !app_assoc. reflexivity.
Qed.

Lemma upsert_loop_last records m rem attempt last_error w e rest :
  faults w = Some (WriteFails e) :: rest → is_lock_error e = true →
  (m - 1 ≤ attempt)%Z →
  upsert_loop records m (S rem) attempt last_error w
  = (mkWorld (db w) (clock w + 1) rest (events w ++ last_failure_events m), Raise e).
Proof.
  intros Hf He Hge. cbn [upsert_loop]. unfold next_fault. rewrite Hf.
  cbn [fault_exn]. rewrite He.
  destruct (Z.ltb_spec attempt (m - 1)) as [?|_]; [lia|].
  unfold release, emit. cbn [db clock faults events].
  rewrite <- !app_assoc. reflexivity.
Qed.

(** Failures that are all retried: the loop goes on after them. *)
Lemma upsert_loop_retries records m es : ∀ rem attempt last_error w rest,
  Forall (λ e, is_lock_error e = true) es →
  faults w = fails es ++ rest →
  (attempt + Z.of_nat (length es) ≤ m - 1)%Z →
  upsert_loop records m (length es + rem) attempt last_error w
  = upsert_loop records m rem (attempt + Z.of_nat (length es))
      (last_error_after last_error es)
      (mkWorld (db w) (clock w + Z.of_nat (length es)) rest
               (events w ++ retries m attempt (length es))).
Proof.
  induction es as [|e es IH]; intros rem attempt last_error w rest Hes Hf Hle.
  - cbn [length fails map app retries Nat.add last_error_after fold_left] in *.
    rewrite !Z.add_0_r, app_nil_r. destruct w. cbn in *. by subst.
  - apply Forall_cons in Hes as [He Hes]. cbn [length] in *.
    cbn [fails map app] in Hf. fold (fails es) in Hf.
    change (S (length es) + rem)%nat with (S (length es + rem)).
    rewrite (upsert_loop_retry _ _ _ _ _ _ e (fails es ++ rest)) by (done || lia).
    rewrite (IH _ _ _ _ rest) by (done || cbn; lia). cbn [db clock events].
    cbn [retries last_error_after fold_left]. rewrite <- app_assoc.
    replace (attempt + 1 + Z.of_nat (length es))%Z
      with (attempt + Z.of_nat (S (length es)))%Z by lia.
    replace (clock w + 1 + Z.of_nat (length es))%Z
      with (clock w + Z.of_nat (S (length es)))%Z by lia.
    reflexivity.
Qed.

Lemma upsert_loop_Ok records m rem : ∀ attempt last_error w w' n,
  upsert_loop records m rem attempt last_error w = (w', Ok n) →
  rem ≠ 0%nat ∨ last_error ≠ None →
  n = length records.
Proof.
  induction rem as [|rem IH]; intros attempt last_error w w' n Hrun Hpre.
  - cbn in Hrun. destruct last_error; [done|]. by destruct Hpre.
  - cbn [upsert_loop] in Hrun. destruct (next_fault w) as [[f|] w1].
    + destruct (is_lock_error (fault_exn f)); [|done].
      destruct (_ <? _)%Z; [|done].
      apply IH in Hrun; [done|]. by right.
    + unfold _do_upsert in Hrun. by injection Hrun as _ <-.
Qed.

Lemma upsert_batch_Ok records m w w' n :
  upsert_batch records m w = (w', Ok n) → (1 ≤ m)%Z → n = length records.
Proof.
  unfold upsert_batch. destruct records as [|r records]; [by intros [= _ <-]|].
  intros Hrun Hm. apply upsert_loop_Ok in Hrun; [done|]. left. lia.
Qed.

Lemma upsert_batch_no_fault records m w :
  records ≠ [] → (1 ≤ m)%Z → faults w = [] →
  upsert_batch records m w = (written_world records w 1 [] [], Ok (length records)).
Proof.
  intros Hne Hm Hf. unfold upsert_batch. destruct records as [|r records]; [done|].
  destruct (Z.to_nat m) as [|rem] eqn:Hrem; [lia|].
  apply upsert_loop_success. by right.
Qed.

(** C2, as stated, fails.  With the default maximum of 5 the fifth
    consecutive deadlock is not followed by a retry: when five attempts
    deadlock and a sixth would meet no fault, the call raises the deadlock
    and the batch is not written. *)
Lemma C2_counterexample : ¬ retried_after_each_of 5.
Proof.
  intros H.
  destruct (H [sample_jan] (fresh_world (fails (repeat deadlock 5) ++ [None])))
    as [w' Hw]; [done|reflexivity|].
  vm_compute in Hw. discriminate Hw.
Qed.

(** C2, amended.  On a deadlock or lock-wait error raised on the open
    connection [upsert_batch] rolls back, closes the connection and, as
    long as fewer than [max_retries - 1] attempts have failed before,
    sleeps [2 ^ attempt] (plus the jitter) and runs the entire batch again;
    [max_retries] bounds the attempts.  So a run of fewer than
    [max_retries] such failures followed by an attempt without fault ends
    with the whole batch written and its count returned, and the
    [max_retries]-th consecutive failure propagates its error with nothing
    written: with the default 5, each of the first four failures is
    followed by a retry and the fifth propagates. *)
Theorem C2_retry_bound (records : list Rec) (max_retries : Z) (w : World)
    (rest : list (option fault)) :
  records ≠ [] → (1 ≤ max_retries)%Z →
  (∀ es,
     Forall (λ e, is_lock_error e = true) es →
     (Z.of_nat (length es) < max_retries)%Z →
     faults w = fails es ++ None :: rest →
     upsert_batch records max_retries w
     = (written_world records w (Z.of_nat (length es) + 1) rest
          (retries max_retries 0 (length es)),
        Ok (length records)))
  ∧ (∀ es e,
       Forall (λ e, is_lock_error e = true) es → is_lock_error e = true →
       Z.of_nat (length es) = (max_retries - 1)%Z →
       faults w = fails es ++ Some (WriteFails e) :: rest →
       upsert_batch records max_retries w
       = (mkWorld (db w) (clock w + max_retries) rest
            (events w ++ retries max_retries 0 (length es)
               ++ last_failure_events max_retries),
          Raise e)).
Proof.
  intros Hne Hm. unfold upsert_batch.
  destruct records as [|r records]; [done|]. set (batch := r :: records). split.
  - intros es Hes Hlen Hf.
    replace (Z.to_nat max_retries)
      with (length es + S (Z.to_nat max_retries - length es - 1))%nat by lia.
    rewrite (upsert_loop_retries _ _ _ _ _ _ _ (None :: rest)) by (done || lia).
    rewrite (upsert_loop_success _ _ _ _ _ _ rest) by (by left).
    unfold written_world. cbn [db clock faults events app].
    rewrite <- !app_assoc, Z.add_assoc. reflexivity.
  - intros es e Hes He Hlen Hf.
    replace (Z.to_nat max_retries) with (length es + 1)%nat by lia.
    rewrite (upsert_loop_retries _ _ _ _ _ _ _ (Some (WriteFails e) :: rest))
      by (done || lia).
    rewrite (upsert_loop_last _ _ _ _ _ _ e rest) by (done || cbn; lia).
    cbn [db clock faults events]. rewrite <- !app_assoc.
    replace (clock w + Z.of_nat (length es) + 1)%Z with (clock w + max_retries)%Z by lia.
    reflexivity.
Qed.

Lemma C2_witness :
  let batch := [sample_jan; sample_jun] in
  let four := repeat deadlock 4 in
  ([sample_jan; sample_jun] ≠ [] ∧ (1 ≤ default_max_retries)%Z
   ∧ Forall (λ e, is_lock_error e = true) four)
  ∧ (upsert_batch batch default_max_retries (fresh_world (fails four ++ [None]))).2
    = Ok 2%nat
  ∧ map (λ ev, match ev with Sleep b => b | _ => 0%Z end)
      (events (upsert_batch batch default_max_retries
                 (fresh_world (fails four ++ [Some (WriteFails deadlock); None]))).1)
    = [0; 0; 0; 0; 1; 0; 0; 0; 0; 2; 0; 0; 0; 0; 4; 0; 0; 0; 0; 8; 0; 0; 0; 0]%Z
  ∧ upsert_batch batch default_max_retries
      (fresh_world (fails four ++ [Some (WriteFails deadlock); None]))
    = (mkWorld empty_db 5 [None]
         (retries 5 0 4 ++ last_failure_events 5), Raise deadlock).
Proof.
  intros batch four.
  assert (Hpre : batch ≠ [] ∧ (1 ≤ default_max_retries)%Z
                 ∧ Forall (λ e, is_lock_error e = true) four).
  { split; [done|]. split; [done|]. repeat constructor. }
  split; [exact Hpre|]. destruct Hpre as (Hne & Hm & Hfour).
  destruct (C2_retry_bound batch default_max_retries
              (fresh_world (fails four ++ [None])) [] Hne Hm) as [HA _].
  destruct (C2_retry_bound batch default_max_retries
              (fresh_world (fails four ++ [Some (WriteFails deadlock); None]))
              [None] Hne Hm) as [_ HB].
  rewrite (HA four Hfour eq_refl eq_refl).
  rewrite (HB four deadlock Hfour eq_refl eq_refl eq_refl).
  repeat split.
Defined.



(** ** Workers in a world without faults *)

Lemma parse_case_file_total e : ∃ o, parse_case_file e = Ok o.
Proof.
  pose proof (parse_case_file_ok e) as H.
  destruct (get_text e "serial-number") as [[|c s]|]; eauto.
  destruct H as (r & -> & _). eauto.
Qed.

Lemma upsert_batch_fault_free records w :
  faults w = [] →
  ∃ w', upsert_batch records default_max_retries w = (w', Ok (length records))
        ∧ faults w' = [].
Proof.
  intros Hf. destruct records as [|r records]; [by exists w|].
  rewrite upsert_batch_no_fault by done. eauto.
Qed.

Section fault_free.

Variable BATCH_SIZE : Z.
Variable tmpdir : string.

(** The state of the loop over the elements does not depend on the
    world, as long as no write meets a fault. *)
Lemma xml_loop_fault_free elems : ∀ records total w1 w2,
  faults w1 = [] → faults w2 = [] →
  (xml_loop BATCH_SIZE elems records total w1).2
  = (xml_loop BATCH_SIZE elems records total w2).2
  ∧ faults (xml_loop BATCH_SIZE elems records total w1).1 = [].
Proof.
  induction elems as [|e elems IH]; intros records total w1 w2 H1 H2;
    cbn [xml_loop]; [done|].
  destruct (decide (tag e = "case-file")); [|by apply IH].
  destruct (parse_case_file_total e) as [o ->].
  set (records' := match o with Some r => records ++ [r] | None => records end).
  destruct (_ <=? _)%Z; [|by apply IH].
  destruct (upsert_batch_fault_free records' w1 H1) as (w1' & -> & H1').
  destruct (upsert_batch_fault_free records' w2 H2) as (w2' & -> & H2').
  by apply IH.
Qed.

Lemma try_block_fault_free fs p w1 w2 :
  faults w1 = [] → faults w2 = [] →
  (try_block BATCH_SIZE fs p w1).2 = (try_block BATCH_SIZE fs p w2).2
  ∧ faults (try_block BATCH_SIZE fs p w1).1 = [].
Proof.
  intros H1 H2. unfold try_block.
  destruct (fs !! p) as [[d|entries]|]; [|done..].
  destruct (xml_loop_fault_free (doc_elems d) [] 0%nat w1 w2 H1 H2) as [Heq Hf1].
  destruct (xml_loop_fault_free (doc_elems d) [] 0%nat w2 w1 H2 H1) as [_ Hf2].
  destruct (xml_loop BATCH_SIZE (doc_elems d) [] 0 w1) as [w1' [[rs1 t1] e1]].
  destruct (xml_loop BATCH_SIZE (doc_elems d) [] 0 w2) as [w2' [[rs2 t2] e2]].
  cbn [fst snd] in *. injection Heq as -> -> ->.
  destruct e2; [done|]. destruct (doc_error d); [done|].
  destruct rs2 as [|r rs2]; [done|].
  destruct (upsert_batch_fault_free (r :: rs2) w1' Hf1) as (w1'' & -> & ?).
  destruct (upsert_batch_fault_free (r :: rs2) w2' Hf2) as (w2'' & -> & ?).
  done.
Qed.

Lemma process_xml_file_fault_free fs p w1 w2 :
  faults w1 = [] → faults w2 = [] →
  (process_xml_file BATCH_SIZE fs p w1).2 = (process_xml_file BATCH_SIZE fs p w2).2
  ∧ faults (process_xml_file BATCH_SIZE fs p w1).1 = [].
Proof.
  intros H1 H2. unfold process_xml_file.
  destruct (try_block_fault_free fs p w1 w2 H1 H2) as [Heq Hf1].
  destruct (try_block BATCH_SIZE fs p w1) as [w1' [t1 e1]].
  destruct (try_block BATCH_SIZE fs p w2) as [w2' [t2 e2]].
  cbn [fst snd] in *. injection Heq as -> ->.
  destruct e2 as [[]|]; done.
Qed.

Lemma zip_loop_fault_free fs entries : ∀ total w1 w2,
  faults w1 = [] → faults w2 = [] →
  (zip_loop BATCH_SIZE tmpdir fs entries total w1).2
  = (zip_loop BATCH_SIZE tmpdir fs entries total w2).2
  ∧ faults (zip_loop BATCH_SIZE tmpdir fs entries total w1).1 = [].
Proof.
  induction entries as [|[name d] entries IH]; intros total w1 w2 H1 H2;
    cbn [zip_loop]; [done|].
  destruct (endswith name ".xml"); [|by apply IH].
  set (fs' := <[_ := _]> fs). set (p := tmpdir +:+ _).
  destruct (process_xml_file_fault_free fs' p w1 w2 H1 H2) as [Heq Hf1].
  destruct (process_xml_file_fault_free fs' p w2 w1 H2 H1) as [_ Hf2].
  destruct (process_xml_file BATCH_SIZE fs' p w1) as [w1' r1].
  destruct (process_xml_file BATCH_SIZE fs' p w2) as [w2' r2].
  cbn [fst snd] in *. subst r1. destruct r2; [by apply IH|done].
Qed.

Lemma worker_fault_free fs p w1 w2 :
  faults w1 = [] → faults w2 = [] →
  (worker_process_file BATCH_SIZE tmpdir fs p w1).2
  = (worker_process_file BATCH_SIZE tmpdir fs p w2).2
  ∧ faults (worker_process_file BATCH_SIZE tmpdir fs p w1).1 = [].
Proof.
  intros H1 H2. unfold worker_process_file.
  destruct (endswith p ".zip").
  - unfold process_zip_file. destruct (fs !! p) as [[d|entries]|]; [done| |done].
    destruct (zip_loop_fault_free fs entries 0%nat w1 w2 H1 H2) as [Heq Hf1].
    destruct (zip_loop BATCH_SIZE tmpdir fs entries 0 w1) as [w1' r1].
    destruct (zip_loop BATCH_SIZE tmpdir fs entries 0 w2) as [w2' r2].
    cbn [fst snd] in *. subst r1. by destruct r2.
  - destruct (endswith p ".xml"); [|done].
    destruct (process_xml_file_fault_free fs p w1 w2 H1 H2) as [Heq Hf1].
    destruct (process_xml_file BATCH_SIZE fs p w1) as [w1' r1].
    destruct (process_xml_file BATCH_SIZE fs p w2) as [w2' r2].
    cbn [fst snd] in *. subst r1. by destruct r2.
Qed.

(** Every file gets the result it gets when it is processed alone. *)
Lemma run_workers_alone fs paths : ∀ w,
  faults w = [] →
  (run_workers BATCH_SIZE tmpdir fs paths w).2
  = map (alone BATCH_SIZE tmpdir fs) paths
  ∧ faults (run_workers BATCH_SIZE tmpdir fs paths w).1 = [].
Proof.
  induction paths as [|p paths IH]; intros w Hf; cbn [run_workers map]; [done|].
  destruct (worker_fault_free fs p w (fresh_world []) Hf eq_refl) as [Heq Hf'].
  destruct (worker_process_file BATCH_SIZE tmpdir fs p w) as [w' r].
  cbn [fst snd] in *. destruct (IH w' Hf') as [IHeq IHf].
  destruct (run_workers BATCH_SIZE tmpdir fs paths w') as [w'' rs].
  cbn [fst snd] in *. split; [|done]. unfold alone at 1. by rewrite <- Heq, IHeq.
Qed.

End fault_free.

(** ** What a worker counts *)

Lemma case_records_cons e elems :
  case_records (e :: elems)
  = (if decide (tag e = "case-file")
     then match parse_case_file e with Ok (Some r) => [r] | _ => [] end
     else []) ++ case_records elems.
Proof.
  unfold case_records. rewrite filter_cons.
  destruct (decide (tag e = "case-file")); [|done].
  unfold parsed. cbn [omap list_omap].
  by destruct (parse_case_file e) as [[r|]|].
Qed.

Section counts.

Variable BATCH_SIZE : Z.
Variable tmpdir : string.
Hypothesis BATCH_SIZE_pos : (0 < BATCH_SIZE)%Z.
Let b := Z.to_nat BATCH_SIZE.

(** In a world without faults the loop flushes every full batch: at its
    end [total_processed] has grown by the records in full batches and
    [records] holds the others. *)
Lemma xml_loop_count elems : ∀ records total w,
  faults w = [] → (length records < b)%nat →
  let n := (length records + length (case_records elems))%nat in
  ∃ w' records',
    xml_loop BATCH_SIZE elems records total w
    = (w', (records', (total + b * (n / b))%nat, None))
    ∧ faults w' = [] ∧ length records' = (n mod b)%nat.
Proof.
  assert (Hb : b ≠ 0%nat) by (subst b; lia).
  induction elems as [|e elems IH]; intros records total w Hf Hlen n; subst n.
  - cbn [xml_loop]. exists w, records. cbn [case_records length].
    unfold case_records. cbn. rewrite Nat.add_0_r.
    rewrite Nat.div_small, Nat.mod_small by done.
    by rewrite Nat.mul_0_r, Nat.add_0_r.
  - cbn [xml_loop]. rewrite case_records_cons, length_app.
    destruct (decide (tag e = "case-file")); [|by apply IH].
    destruct (parse_case_file_total e) as [[r|] ->];
      [|destruct (Z.leb_spec BATCH_SIZE (Z.of_nat (length records)));
        [subst b; lia | by apply IH]].
    rewrite length_app. cbn [length].
    destruct (Z.leb_spec BATCH_SIZE (Z.of_nat (length records + 1))) as [Hfull|Hroom].
    + assert (Hlen' : (length records + 1 = b)%nat) by (subst b; lia).
      destruct (upsert_batch_fault_free (records ++ [r]) w Hf) as (w1 & -> & Hf1).
      rewrite length_app. cbn [length]. rewrite Hlen'.
      destruct (IH [] (total + b)%nat w1 Hf1 ltac:(cbn; lia))
        as (w' & records' & -> & Hf' & Hrs).
      cbn [length] in *. exists w', records'. split; [|split; [done|]].
      * do 3 f_equal.
        replace (length records + (1 + length (case_records elems)))%nat
          with (1 * b + length (case_records elems))%nat by lia.
        rewrite Nat.div_add_l by done. cbn [Nat.add]. lia.
      * rewrite Hrs.
        replace (length records + (1 + length (case_records elems)))%nat
          with (0 + length (case_records elems) + 1 * b)%nat by lia.
        by rewrite Nat.Div0.mod_add.
    + destruct (IH (records ++ [r]) total w Hf
                  ltac:(rewrite length_app; cbn; subst b; lia))
        as (w' & records' & -> & Hf' & Hrs).
      rewrite length_app in *. cbn [length] in *.
      exists w', records'.
      replace (length records + (1 + length (case_records elems)))%nat
        with (length records + 1 + length (case_records elems))%nat by lia.
      done.
Qed.


Lemma process_xml_file_malformed fs p d msg w :
  fs !! p = Some (XmlFile d) → doc_error d = Some msg → faults w = [] →
  ∃ w', process_xml_file BATCH_SIZE fs p w
        = (emit [LogParseError p msg] w',
           Ok (b * (length (case_records (doc_elems d)) / b))%nat)
        ∧ faults w' = [].
Proof.
  intros Hfs Hdoc Hf. unfold process_xml_file, try_block. rewrite Hfs.
  destruct (xml_loop_count (doc_elems d) [] 0%nat w Hf ltac:(cbn; subst b; lia))
    as (w' & rs & -> & Hf' & _).
  rewrite Hdoc. cbn [length Nat.add]. eauto.
Qed.

Lemma process_xml_file_well_formed fs p d w :
  fs !! p = Some (XmlFile d) → doc_error d = None → faults w = [] →
  ∃ w', process_xml_file BATCH_SIZE fs p w
        = (w', Ok (length (case_records (doc_elems d))))
        ∧ faults w' = [].
Proof.
  intros Hfs Hdoc Hf. unfold process_xml_file, try_block. rewrite Hfs.
  destruct (xml_loop_count (doc_elems d) [] 0%nat w Hf ltac:(cbn; subst b; lia))
    as (w' & rs & -> & Hf' & Hrs).
  rewrite Hdoc. cbn [length Nat.add] in *.
  pose proof (Nat.div_mod_eq (length (case_records (doc_elems d))) b) as Hdm.
  destruct rs as [|r rs].
  - cbn [length] in Hrs. exists w'. split; [|done]. do 2 f_equal. lia.
  - destruct (upsert_batch_fault_free (r :: rs) w' Hf') as (w'' & -> & Hf'').
    exists w''. split; [|done]. do 2 f_equal. lia.
Qed.

Lemma worker_malformed fs p d msg w :
  endswith p ".zip" = false → endswith p ".xml" = true →
  fs !! p = Some (XmlFile d) → doc_error d = Some msg → faults w = [] →
  ∃ w', worker_process_file BATCH_SIZE tmpdir fs p w
        = (w', (p, (b * (length (case_records (doc_elems d)) / b))%nat, None))
        ∧ last (events w') = Some (LogParseError p msg).
Proof.
  intros Hzip Hxml Hfs Hdoc Hf. unfold worker_process_file. rewrite Hzip, Hxml.
  destruct (process_xml_file_malformed fs p d msg w Hfs Hdoc Hf) as (w' & -> & _).
  eexists. split; [reflexivity|]. unfold emit. cbn [events]. apply last_snoc.
Qed.

Lemma worker_well_formed fs p d w :
  endswith p ".zip" = false → endswith p ".xml" = true →
  fs !! p = Some (XmlFile d) → doc_error d = None → faults w = [] →
  ∃ w', worker_process_file BATCH_SIZE tmpdir fs p w
        = (w', (p, length (case_records (doc_elems d)), None)).
Proof.
  intros Hzip Hxml Hfs Hdoc Hf. unfold worker_process_file. rewrite Hzip, Hxml.
  destruct (process_xml_file_well_formed fs p d w Hfs Hdoc Hf) as (w' & -> & _).
  eauto.
Qed.

End counts.

Lemma worker_path BATCH_SIZE tmpdir fs p w :
  (worker_process_file BATCH_SIZE tmpdir fs p w).2.1.1 = p.
Proof.
  unfold worker_process_file.
  destruct (endswith p ".zip"); [destruct (process_zip_file _ _ _ _ _) as [? []]; done|].
  destruct (endswith p ".xml"); [destruct (process_xml_file _ _ _ _) as [? []]; done|].
  done.
Qed.

(** ** The coordinator *)

Lemma collect_fold results : ∀ total log,
  ∃ log',
    fold_left collect results (total, log)
    = ((total + successful_total results)%nat, log ++ log')
    ∧ ∀ p c, (p, c, None) ∈ results → ∃ t, LogCompleted p c t ∈ log'.
Proof.
  induction results as [|[[p c] err] results IH]; intros total log.
  - exists []. cbn. rewrite Nat.add_0_r, app_nil_r. split; [done|].
    by intros ? ? ?%elem_of_nil.
  - cbn [fold_left collect]. unfold successful_total. cbn [map sum_list_with sum_list fst snd].
    fold (successful_total results).
    destruct (str_truthy err) eqn:Herr.
    + destruct (IH total (log ++ [LogFileError p (default "" err)])) as (log' & -> & Hlog).
      eexists. rewrite <- app_assoc. split; [reflexivity|].
      intros p' c' [[= -> -> <-]|Hin]%elem_of_cons; [done|].
      destruct (Hlog _ _ Hin) as [t Ht]. exists t. by right.
    + destruct (IH (total + c)%nat (log ++ [LogCompleted p c (total + c)])) as (log' & -> & Hlog).
      eexists. rewrite <- app_assoc. split; [f_equal; unfold id; lia|].
      intros p' c' [[= -> -> _]|Hin]%elem_of_cons; [eexists; left|].
      destruct (Hlog _ _ Hin) as [t Ht]. exists t. by right.
Qed.



